(** * The CEL plan compiler (cel-go, interpreter/planner.go)

    A shallow embedding of the planner that turns a (possibly checked)
    expression tree into a graph of [Interpretable] nodes, and the
    properties its specification states about it.

    Conventions of the embedding:
    - a Go pointer to an expression is a value of [Expr]; the nil pointer
      is [Expr_nil], an expression whose oneof kind is not set is
      [Expr_unset];
    - an [Interpretable] built by [&evalX{...}] is a value that carries the
      address it was allocated at: two nodes are the same instance exactly
      when they are equal, address included; nodes are never mutated;
    - the one mutable field of the planner, [identMap], and the allocator
      are threaded through an explicit state; a planning step returns a
      node, an [error], or panics (nil dereference, index out of range). *)

From Stdlib Require Import ZArith.
From stdpp Require Import base strings list gmap.

Set Default Proof Using "Type".
Set Warnings "-register-all".

(** ** Collaborating packages, as far as the planner uses them *)

(** common/types: the runtime values the planner builds from literals.
    [Double] carries the IEEE-754 bit pattern, [Dyn] stands for every other
    runtime value (lists, maps, messages, types), opaque to planning. *)
Module types.
Inductive Val :=
| Bool (b : bool)
| Bytes (b : list Byte.byte)
| Double (bits : Z)
| Int (i : Z)
| Null
| String (s : string)
| Uint (u : Z)
| Dyn (repr : string).
End types.

(** common/types/ref: the provider and adapter interfaces. The planner
    keeps only the [found] flag of [FindType]. *)
Module ref.
Record TypeProvider := {
  FindType : string -> bool;
  FindIdent : string -> option types.Val
}.
Record TypeAdapter := {
  NativeToValue : types.Val -> types.Val
}.
End ref.

(** common/packages: the namespace context. *)
Module packages.
Record Packager := {
  Package : string;
  ResolveCandidateNames : string -> list string
}.
End packages.

(** interpreter/functions: an overload entry with its arity-specific
    forms; an absent form is a nil function value. *)
Module functions.
Definition UnaryOp := types.Val -> types.Val.
Definition BinaryOp := types.Val -> types.Val -> types.Val.
Definition FunctionOp := list types.Val -> types.Val.
Record Overload := {
  Operator : string;
  OperandTrait : Z;
  Unary : option UnaryOp;
  Binary : option BinaryOp;
  Function : option FunctionOp
}.
End functions.

(** Modelled from the spec: the names of the five specialised operators,
    declared in common/operators, which is not among the sources. The spec
    writes them [&&], [||], [?:], [==] and [!=]; these are the function
    names cel-go's parser gives them. *)
Module operators.
Definition LogicalAnd : string := "_&&_".
Definition LogicalOr : string := "_||_".
Definition Conditional : string := "_?_:_".
Definition Equals : string := "_==_".
Definition NotEquals : string := "_!=_".
End operators.

(** The dispatcher interface: [FindOverload] returns the entry or nil. *)
Record Dispatcher := {
  FindOverload : string -> option functions.Overload
}.

(** The evaluation-time variable bindings. *)
Record Activation := {
  ResolveName : string -> option types.Val
}.

(** ** The input: expression protos *)
Module exprpb.
Inductive Constant :=
| Constant_unset
| Constant_BoolValue (b : bool)
| Constant_BytesValue (b : list Byte.byte)
| Constant_DoubleValue (bits : Z)
| Constant_Int64Value (i : Z)
| Constant_NullValue
| Constant_StringValue (s : string)
| Constant_Uint64Value (u : Z).

Record Reference := {
  Name : string;
  OverloadId : list string;
  Value : option Constant
}.

Inductive Expr :=
| Expr_nil
| Expr_unset (Id : Z)
| Expr_ConstExpr (Id : Z) (ConstExpr : Constant)
| Expr_IdentExpr (Id : Z) (IdentName : string)
| Expr_SelectExpr (Id : Z) (Operand : Expr) (Field : string) (TestOnly : bool)
| Expr_CallExpr (Id : Z) (Target : Expr) (Func : string) (Args : list Expr)
| Expr_ListExpr (Id : Z) (Elements : list Expr)
| Expr_StructExpr (Id : Z) (MessageName : string) (Entries : list Entry)
| Expr_ComprehensionExpr (Id : Z) (IterVar : string) (IterRange : Expr)
    (AccuVar : string) (AccuInit LoopCondition LoopStep Result : Expr)
with Entry :=
| Entry_unset (EntryId : Z) (EntryValue : Expr)
| Entry_FieldKey (EntryId : Z) (FieldKey : string) (EntryValue : Expr)
| Entry_MapKey (EntryId : Z) (MapKey : Expr) (EntryValue : Expr).

(** The nil-safe getters of an entry. *)
Definition GetFieldKey (en : Entry) : string :=
  match en with
  | Entry_FieldKey _ k _ => k
  | _ => ""
  end.

(** The [Id] field of an expression that is not nil. *)
Definition GetId (e : Expr) : Z :=
  match e with
  | Expr_nil => 0
  | Expr_unset id | Expr_ConstExpr id _ | Expr_IdentExpr id _
  | Expr_SelectExpr id _ _ _ | Expr_CallExpr id _ _ _ | Expr_ListExpr id _
  | Expr_StructExpr id _ _ | Expr_ComprehensionExpr id _ _ _ _ _ _ _ => id
  end.
End exprpb.
Export exprpb.

(** ** The output: plan nodes *)

Definition addr := nat.

(** The node structs of the interpreter package, each with the address of
    its allocation. [evalExtern] is an [Interpretable] implemented outside
    the planner, which is what a decorator may return. *)
Inductive Interpretable :=
| evalConst (a : addr) (id : Z) (val : types.Val)
| evalIdent (a : addr) (id : Z) (name : string) (provider : ref.TypeProvider)
    (resolveID : option (Activation -> option types.Val))
| evalSelect (a : addr) (id : Z) (field : types.Val) (op : Interpretable)
    (resolveID : option (Activation -> option types.Val))
| evalTestOnly (a : addr) (id : Z) (field : types.Val) (op : Interpretable)
| evalZeroArity (a : addr) (id : Z) (impl : functions.FunctionOp)
| evalUnary (a : addr) (id : Z) (function overload : string)
    (arg : Interpretable) (trait : Z) (impl : option functions.UnaryOp)
| evalBinary (a : addr) (id : Z) (function overload : string)
    (lhs rhs : Interpretable) (trait : Z) (impl : option functions.BinaryOp)
| evalVarArgs (a : addr) (id : Z) (function overload : string)
    (args : list Interpretable) (trait : Z) (impl : option functions.FunctionOp)
| evalEq (a : addr) (id : Z) (lhs rhs : Interpretable)
| evalNe (a : addr) (id : Z) (lhs rhs : Interpretable)
| evalAnd (a : addr) (id : Z) (lhs rhs : Interpretable)
| evalOr (a : addr) (id : Z) (lhs rhs : Interpretable)
| evalConditional (a : addr) (id : Z) (expr truthy falsy : Interpretable)
| evalList (a : addr) (id : Z) (elems : list Interpretable)
    (adapter : ref.TypeAdapter)
| evalMap (a : addr) (id : Z) (keys vals : list Interpretable)
    (adapter : ref.TypeAdapter)
| evalObj (a : addr) (id : Z) (typeName : string) (fields : list string)
    (vals : list Interpretable) (provider : ref.TypeProvider)
| evalFold (a : addr) (id : Z) (accuVar : string) (accu : Interpretable)
    (iterVar : string) (iterRange cond step result : Interpretable)
| evalExtern (a : addr) (kind : string) (parts : list Interpretable).

(** ** Errors, panics and the planning monad *)

(** The errors of planning: each constructor is one [fmt.Errorf] of the
    source, or an error handed back by a decorator. *)
Inductive error :=
| UnsupportedNode (e : Expr)           (* "unsupported expr: %v" *)
| UnknownOverload (call : string)      (* "no such overload: %s" *)
| UnknownType (typeName : string)      (* "unknown type: %s" *)
| UnknownConstantKind (c : Constant)   (* "unknown constant type: %v" *)
| DecoratorFailure (msg : string).

Inductive failure :=
| Error (e : error)
| Panic (why : string).

Inductive result (A : Type) :=
| Ok (x : A)
| Fail (f : failure).
Arguments Ok {A} x.
Arguments Fail {A} f.

(** The mutable part of a planner and the allocator. *)
Record pstate := {
  identMap : gmap string Interpretable;
  next : addr
}.

Definition M (A : Type) : Type := pstate -> result A * pstate.

Definition ret {A} (x : A) : M A := fun st => (Ok x, st).

Definition bind {A B} (c : M A) (k : A -> M B) : M B :=
  fun st =>
    match c st with
    | (Ok x, st') => k x st'
    | (Fail f, st') => (Fail f, st')
    end.

Notation "x <~ c ;; k" := (bind c (fun x => k))
  (at level 60, c at next level, right associativity).

Definition throw {A} (e : error) : M A := fun st => (Fail (Error e), st).
Definition panic {A} (why : string) : M A := fun st => (Fail (Panic why), st).

Definition nil_dereference : string := "invalid memory address or nil pointer dereference".
Definition index_out_of_range : string := "index out of range".

(** [&evalX{...}]: the node gets the next free address. *)
Definition alloc (mk : addr -> Interpretable) : M Interpretable :=
  fun st => (Ok (mk (next st)), {| identMap := identMap st; next := S (next st) |}).

(** [p.identMap[name]] and [p.identMap[name] = i]. *)
Definition lookupIdent (name : string) : M (option Interpretable) :=
  fun st => (Ok (identMap st !! name), st).

Definition storeIdent (name : string) (i : Interpretable) : M unit :=
  fun st => (Ok tt, {| identMap := <[name := i]> (identMap st); next := next st |}).

(** [args[i]] on a slice. *)
Definition index (args : list Interpretable) (i : nat) : M Interpretable :=
  match args !! i with
  | Some x => ret x
  | None => panic index_out_of_range
  end.

(** A decorator maps a node to a node or an error; it may allocate. *)
Definition InterpretableDecorator : Type :=
  Interpretable -> addr -> result Interpretable * addr.

Definition runDecorator (dec : InterpretableDecorator) (i : Interpretable) : M Interpretable :=
  fun st =>
    let '(r, n) := dec i (next st) in
    (r, {| identMap := identMap st; next := n |}).

(** The planner struct without [identMap], which lives in [pstate].
    [typeMap] is stored by the constructors and never read by planning. *)
Record planner := {
  disp : Dispatcher;
  provider : ref.TypeProvider;
  adapter : ref.TypeAdapter;
  pkg : packages.Packager;
  refMap : gmap Z Reference;
  decorators : list InterpretableDecorator
}.

(** [newPlanner] and [newUncheckedPlanner] start from an empty cache. *)
Definition newState : pstate := {| identMap := ∅; next := 0 |}.

(** ** The planning steps

    The methods of [planner] call [p.Plan] on sub-expressions; here they
    take that recursive entry point as the section variable [Plan], and the
    fixpoint [Plan] below ties the knot. *)
Section Steps.
Variable p : planner.
Variable Plan : Expr -> M Interpretable.

(** [p.Plan] on a nil expression: the type switch reads [expr.ExprKind]. *)
Definition Plan_nil : M Interpretable := panic nil_dereference.

(** The loop of [decorate] over [p.decorators]. *)
Fixpoint applyDecorators (decs : list InterpretableDecorator) (i : Interpretable)
  : M Interpretable :=
  match decs with
  | [] => ret i
  | dec :: rest => i' <~ runDecorator dec i ;; applyDecorators rest i'
  end.

(** [decorate] receives the node and error of a planning step. *)
Definition decorate (step : M Interpretable) : M Interpretable :=
  i <~ step ;; applyDecorators (decorators p) i.

(** [idResolver]: the closure that walks the namespace candidates. *)
Definition idResolver (ident : string) : Activation -> option types.Val :=
  fun ctx =>
    (fix walk (ids : list string) : option types.Val :=
       match ids with
       | [] => None
       | id :: rest =>
         match ResolveName ctx id with
         | Some object => Some object
         | None =>
           match ref.FindIdent (provider p) id with
           | Some typeIdent => Some typeIdent
           | None => walk rest
           end
         end
       end) (packages.ResolveCandidateNames (pkg p) ident).

Definition planIdent (expr : Expr) : M Interpretable :=
  match expr with
  | Expr_IdentExpr id idName =>
    cached <~ lookupIdent idName ;;
    match cached with
    | Some i => ret i
    | None =>
      let resolver :=
        if bool_decide (packages.Package (pkg p) ≠ "")
        then Some (idResolver idName) else None in
      i <~ alloc (fun a => evalIdent a id idName (provider p) resolver) ;;
      _ <~ storeIdent idName i ;;
      ret i
    end
  | _ => panic nil_dereference
  end.

(** [constValue]: a proto constant as a runtime value. *)
Definition constValue (c : Constant) : M types.Val :=
  match c with
  | Constant_BoolValue b => ret (types.Bool b)
  | Constant_BytesValue b => ret (types.Bytes b)
  | Constant_DoubleValue d => ret (types.Double d)
  | Constant_Int64Value i => ret (types.Int i)
  | Constant_NullValue => ret types.Null
  | Constant_StringValue s => ret (types.String s)
  | Constant_Uint64Value u => ret (types.Uint u)
  | Constant_unset => throw (UnknownConstantKind c)
  end.

Definition planConst (expr : Expr) : M Interpretable :=
  match expr with
  | Expr_ConstExpr id c =>
    val <~ constValue c ;;
    alloc (fun a => evalConst a id val)
  | _ => panic nil_dereference
  end.

(** The [Expr_ConstExpr] arm of [Plan]. [planSelect] re-enters [p.Plan] on
    a constant expression it has just built, which is not a sub-term of
    its input; that call is this arm (see [Plan_ConstExpr]). *)
Definition Plan_const (expr : Expr) : M Interpretable :=
  decorate (planConst expr).

(** [getQualifiedID], on the operand and field of the select. *)
Fixpoint getQualifiedID (op : Expr) (ident : string) : M (string * bool) :=
  match op with
  | Expr_IdentExpr _ name => ret (name +:+ "." +:+ ident, true)
  | Expr_SelectExpr _ operand field _ => getQualifiedID operand (field +:+ "." +:+ ident)
  | Expr_nil => panic nil_dereference
  | _ => ret (ident, false)
  end.

Definition planSelect (expr : Expr) : M Interpretable :=
  match expr with
  | Expr_SelectExpr id operand field testOnly =>
    if testOnly then
      op <~ Plan operand ;;
      alloc (fun a => evalTestOnly a id (types.String field) op)
    else
      match refMap p !! id with
      | Some idRef =>
        let idName := Name idRef in
        match Value idRef with
        | Some v => Plan_const (Expr_ConstExpr id v)
        | None =>
          cached <~ lookupIdent idName ;;
          match cached with
          | Some i => ret i
          | None =>
            i <~ alloc (fun a => evalIdent a id idName (provider p) None) ;;
            _ <~ storeIdent idName i ;;
            ret i
          end
        end
      | None =>
        op <~ Plan operand ;;
        qual <~ getQualifiedID operand field ;;
        let resolver := if qual.2 then Some (idResolver qual.1) else None in
        alloc (fun a => evalSelect a id (types.String field) op resolver)
      end
  | _ => panic nil_dereference
  end.

(** A loop that plans a slice of expressions in order. *)
Definition planEach : list Expr -> M (list Interpretable) :=
  fix each (es : list Expr) : M (list Interpretable) :=
    match es with
    | [] => ret []
    | e :: rest => v <~ Plan e ;; vs <~ each rest ;; ret (v :: vs)
    end.

(** The first half of [planCall]: the target, when there is one, becomes
    argument 0, then the arguments follow in order. *)
Definition planCallArgs (target : Expr) (args : list Expr) : M (list Interpretable) :=
  match target with
  | Expr_nil => planEach args
  | _ => arg <~ Plan target ;; rest <~ planEach args ;; ret (arg :: rest)
  end.

Definition planCallZero (id : Z) (function overload : string)
    (impl : option functions.Overload) : M Interpretable :=
  match impl with
  | Some o =>
    match functions.Function o with
    | Some fn => alloc (fun a => evalZeroArity a id fn)
    | None => throw (UnknownOverload (function +:+ "()"))
    end
  | None => throw (UnknownOverload (function +:+ "()"))
  end.

Definition planCallUnary (id : Z) (function overload : string)
    (impl : option functions.Overload) (args : list Interpretable) : M Interpretable :=
  match impl with
  | Some o =>
    match functions.Unary o with
    | None => throw (UnknownOverload (function +:+ "(arg)"))
    | Some fn =>
      arg <~ index args 0 ;;
      alloc (fun a => evalUnary a id function overload arg (functions.OperandTrait o) (Some fn))
    end
  | None =>
    arg <~ index args 0 ;;
    alloc (fun a => evalUnary a id function overload arg 0%Z None)
  end.

Definition planCallBinary (id : Z) (function overload : string)
    (impl : option functions.Overload) (args : list Interpretable) : M Interpretable :=
  match impl with
  | Some o =>
    match functions.Binary o with
    | None => throw (UnknownOverload (function +:+ "(lhs, rhs)"))
    | Some fn =>
      lhs <~ index args 0 ;;
      rhs <~ index args 1 ;;
      alloc (fun a => evalBinary a id function overload lhs rhs (functions.OperandTrait o) (Some fn))
    end
  | None =>
    lhs <~ index args 0 ;;
    rhs <~ index args 1 ;;
    alloc (fun a => evalBinary a id function overload lhs rhs 0%Z None)
  end.

Definition planCallVarArgs (id : Z) (function overload : string)
    (impl : option functions.Overload) (args : list Interpretable) : M Interpretable :=
  match impl with
  | Some o =>
    match functions.Function o with
    | None => throw (UnknownOverload (function +:+ "(...)"))
    | Some fn =>
      alloc (fun a => evalVarArgs a id function overload args (functions.OperandTrait o) (Some fn))
    end
  | None => alloc (fun a => evalVarArgs a id function overload args 0%Z None)
  end.

Definition planCallEqual (id : Z) (args : list Interpretable) : M Interpretable :=
  lhs <~ index args 0 ;;
  rhs <~ index args 1 ;;
  alloc (fun a => evalEq a id lhs rhs).

Definition planCallNotEqual (id : Z) (args : list Interpretable) : M Interpretable :=
  lhs <~ index args 0 ;;
  rhs <~ index args 1 ;;
  alloc (fun a => evalNe a id lhs rhs).

Definition planCallLogicalAnd (id : Z) (args : list Interpretable) : M Interpretable :=
  lhs <~ index args 0 ;;
  rhs <~ index args 1 ;;
  alloc (fun a => evalAnd a id lhs rhs).

Definition planCallLogicalOr (id : Z) (args : list Interpretable) : M Interpretable :=
  lhs <~ index args 0 ;;
  rhs <~ index args 1 ;;
  alloc (fun a => evalOr a id lhs rhs).

Definition planCallConditional (id : Z) (args : list Interpretable) : M Interpretable :=
  cond <~ index args 0 ;;
  truthy <~ index args 1 ;;
  falsy <~ index args 2 ;;
  alloc (fun a => evalConditional a id cond truthy falsy).

(** The overload id of the call: the reference of the node, when it lists
    exactly one overload. *)
Definition overloadName (id : Z) : string :=
  match refMap p !! id with
  | Some oRef =>
    match OverloadId oRef with
    | [o] => o
    | _ => ""
    end
  | None => ""
  end.

(** The lookup of generic dispatch: by overload id, then by name. *)
Definition findImpl (fnName oName : string) : option functions.Overload :=
  let fnDef := if bool_decide (oName ≠ "") then FindOverload (disp p) oName else None in
  match fnDef with
  | Some o => Some o
  | None => FindOverload (disp p) fnName
  end.

Definition planCall (expr : Expr) : M Interpretable :=
  match expr with
  | Expr_CallExpr id target fnName callArgs =>
    args <~ planCallArgs target callArgs ;;
    let argCount := length args in
    let oName := overloadName id in
    if bool_decide (fnName = operators.LogicalAnd) then planCallLogicalAnd id args
    else if bool_decide (fnName = operators.LogicalOr) then planCallLogicalOr id args
    else if bool_decide (fnName = operators.Conditional) then planCallConditional id args
    else if bool_decide (fnName = operators.Equals) then planCallEqual id args
    else if bool_decide (fnName = operators.NotEquals) then planCallNotEqual id args
    else
      let fnDef := findImpl fnName oName in
      match argCount with
      | 0 => planCallZero id fnName oName fnDef
      | 1 => planCallUnary id fnName oName fnDef args
      | 2 => planCallBinary id fnName oName fnDef args
      | _ => planCallVarArgs id fnName oName fnDef args
      end
  | _ => panic nil_dereference
  end.

(** [GetListExpr] and [GetElements] are nil-safe: an expression that is no
    list has no elements, and only reading [expr.Id] of nil panics. *)
Definition planCreateList (expr : Expr) : M Interpretable :=
  match expr with
  | Expr_ListExpr id elements =>
    elems <~ planEach elements ;;
    alloc (fun a => evalList a id elems (adapter p))
  | Expr_nil => panic nil_dereference
  | _ => alloc (fun a => evalList a (GetId expr) [] (adapter p))
  end.

(** The candidate loop of [planCreateObj]: the name of the first candidate
    the provider knows and [true], or the name as given and [false]. *)
Fixpoint resolveTypeName (candidates : list string) (typeName : string) : string * bool :=
  match candidates with
  | [] => (typeName, false)
  | qualifiedTypeName :: rest =>
    if ref.FindType (provider p) qualifiedTypeName
    then (qualifiedTypeName, true)
    else resolveTypeName rest typeName
  end.

(** The entry loops: [Plan] on the value of an entry, and on its map key,
    which is nil for an entry without one. *)
Definition planEntryValue (en : Entry) : M Interpretable :=
  match en with
  | Entry_unset _ v | Entry_FieldKey _ _ v | Entry_MapKey _ _ v => Plan v
  end.

Definition planEntryMapKey (en : Entry) : M Interpretable :=
  match en with
  | Entry_MapKey _ k _ => Plan k
  | _ => Plan_nil
  end.

Definition planObjEntries : list Entry -> M (list Interpretable) :=
  fix each (ens : list Entry) : M (list Interpretable) :=
    match ens with
    | [] => ret []
    | en :: rest => v <~ planEntryValue en ;; vs <~ each rest ;; ret (v :: vs)
    end.

Definition planMapEntries : list Entry -> M (list Interpretable * list Interpretable) :=
  fix each (ens : list Entry) : M (list Interpretable * list Interpretable) :=
    match ens with
    | [] => ret ([], [])
    | en :: rest =>
      keyVal <~ planEntryMapKey en ;;
      valVal <~ planEntryValue en ;;
      kvs <~ each rest ;;
      ret (keyVal :: kvs.1, valVal :: kvs.2)
    end.

Definition planCreateObj (expr : Expr) : M Interpretable :=
  match expr with
  | Expr_StructExpr id messageName entries =>
    let '(typeName, defined) :=
      resolveTypeName (packages.ResolveCandidateNames (pkg p) messageName) messageName in
    if negb defined then throw (UnknownType typeName)
    else
      vals <~ planObjEntries entries ;;
      alloc (fun a => evalObj a id typeName (GetFieldKey <$> entries) vals (provider p))
  | _ => panic nil_dereference
  end.

Definition planCreateStruct (expr : Expr) : M Interpretable :=
  match expr with
  | Expr_StructExpr id messageName entries =>
    if bool_decide (String.length messageName ≠ 0) then planCreateObj expr
    else
      kvs <~ planMapEntries entries ;;
      alloc (fun a => evalMap a id kvs.1 kvs.2 (adapter p))
  | _ => panic nil_dereference
  end.

Definition planComprehension (expr : Expr) : M Interpretable :=
  match expr with
  | Expr_ComprehensionExpr id iterVar iterRangeE accuVar accuInit loopCondition loopStep resultE =>
    accu <~ Plan accuInit ;;
    iterRange <~ Plan iterRangeE ;;
    cond <~ Plan loopCondition ;;
    step <~ Plan loopStep ;;
    result <~ Plan resultE ;;
    alloc (fun a => evalFold a id accuVar accu iterVar iterRange cond step result)
  | _ => panic nil_dereference
  end.

End Steps.

(** [Plan]: the type switch over the kind of the expression. *)
Fixpoint Plan (p : planner) (expr : Expr) {struct expr} : M Interpretable :=
  match expr with
  | Expr_CallExpr _ _ _ _ => decorate p (planCall p (Plan p) expr)
  | Expr_IdentExpr _ _ => decorate p (planIdent p expr)
  | Expr_SelectExpr _ _ _ _ => decorate p (planSelect p (Plan p) expr)
  | Expr_ListExpr _ _ => decorate p (planCreateList p (Plan p) expr)
  | Expr_StructExpr _ _ _ => decorate p (planCreateStruct p (Plan p) expr)
  | Expr_ComprehensionExpr _ _ _ _ _ _ _ _ => decorate p (planComprehension (Plan p) expr)
  | Expr_ConstExpr _ _ => decorate p (planConst expr)
  | Expr_unset _ => throw (UnsupportedNode expr)
  | Expr_nil => Plan_nil
  end.


(** * Vocabulary of the properties *)

(** The state after one allocation. *)
Definition bump (st : pstate) : pstate :=
  {| identMap := identMap st; next := S (next st) |}.

(** A step under which the identifier cache only grows: every entry it
    starts with is still there, unchanged, when it ends. *)
Definition grows {A} (c : M A) : Prop :=
  forall st r st', c st = (r, st') -> identMap st ⊆ identMap st'.

(** A property of the expressions an entry holds. *)
Definition EntryAll (P : Expr -> Prop) (en : Entry) : Prop :=
  match en with
  | Entry_unset _ v | Entry_FieldKey _ _ v => P v
  | Entry_MapKey _ k v => P k /\ P v
  end.

(** The same planner with another dispatcher. *)
Definition withDispatcher (d : Dispatcher) (p : planner) : planner :=
  {| disp := d; provider := provider p; adapter := adapter p; pkg := pkg p;
     refMap := refMap p; decorators := decorators p |}.

(** The same planner with another reference map. *)
Definition withRefMap (m : gmap Z Reference) (p : planner) : planner :=
  {| disp := disp p; provider := provider p; adapter := adapter p; pkg := pkg p;
     refMap := m; decorators := decorators p |}.

(** The five function names the spec lists as specialised. *)
Definition isOperator (fnName : string) : Prop :=
  fnName ∈ [operators.LogicalAnd; operators.LogicalOr; operators.Conditional;
            operators.Equals; operators.NotEquals].

(** The number of arguments a specialised operator reads: three for the
    conditional, two for the others. *)
Definition operatorArity (fnName : string) : nat :=
  if bool_decide (fnName = operators.Conditional) then 3 else 2.

(** The dedicated structural node the spec gives each operator, over the
    planned arguments; none for another name or for too few arguments. *)
Definition dedicatedNode (fnName : string) (a : addr) (id : Z)
    (args : list Interpretable) : option Interpretable :=
  match args with
  | x :: y :: rest =>
    if bool_decide (fnName = operators.LogicalAnd) then Some (evalAnd a id x y)
    else if bool_decide (fnName = operators.LogicalOr) then Some (evalOr a id x y)
    else if bool_decide (fnName = operators.Equals) then Some (evalEq a id x y)
    else if bool_decide (fnName = operators.NotEquals) then Some (evalNe a id x y)
    else if bool_decide (fnName = operators.Conditional) then
      match rest with
      | z :: _ => Some (evalConditional a id x y z)
      | [] => None
      end
    else None
  | _ => None
  end.

(** The arity of a call: its arguments, and its target when it has one. *)
Definition argCount (target : Expr) (callArgs : list Expr) : nat :=
  match target with
  | Expr_nil => length callArgs
  | _ => S (length callArgs)
  end.

(** The five sub-expressions of a comprehension in the order the spec
    gives: accumulator initializer, iteration range, loop condition, loop
    step, result. *)
Definition foldOrder (accuInit iterRange cond step res : Expr) : list Expr :=
  [accuInit; iterRange; cond; step; res].

(** [namesIdent p e name]: planning [e] goes to the identifier cache under
    [name], either as a bare identifier of that name or as a select, not
    test-only, whose reference gives that name and no constant value. *)
Inductive namesIdent (p : planner) : Expr -> string -> Prop :=
| names_bare id name :
    namesIdent p (Expr_IdentExpr id name) name
| names_static id operand field idRef :
    refMap p !! id = Some idRef ->
    Value idRef = None ->
    namesIdent p (Expr_SelectExpr id operand field false) (Name idRef).

(** The step [Plan] runs on an identifier or a select, before decoration. *)
Definition planNamed (p : planner) (e : Expr) : M Interpretable :=
  match e with
  | Expr_IdentExpr _ _ => planIdent p e
  | _ => planSelect p (Plan p) e
  end.

(** The state a planner is in after planning each of [es] in turn,
    whatever each of these plans returns. *)
Definition planAll (p : planner) (es : list Expr) (st : pstate) : pstate :=
  foldl (fun s e => (Plan p e s).2) st es.

(** Structure without identity: the node with every address reset. *)
Fixpoint erase (i : Interpretable) : Interpretable :=
  match i with
  | evalConst _ id val => evalConst 0 id val
  | evalIdent _ id name prov res => evalIdent 0 id name prov res
  | evalSelect _ id field op res => evalSelect 0 id field (erase op) res
  | evalTestOnly _ id field op => evalTestOnly 0 id field (erase op)
  | evalZeroArity _ id impl => evalZeroArity 0 id impl
  | evalUnary _ id fn o arg trait impl => evalUnary 0 id fn o (erase arg) trait impl
  | evalBinary _ id fn o lhs rhs trait impl =>
    evalBinary 0 id fn o (erase lhs) (erase rhs) trait impl
  | evalVarArgs _ id fn o args trait impl => evalVarArgs 0 id fn o (erase <$> args) trait impl
  | evalEq _ id lhs rhs => evalEq 0 id (erase lhs) (erase rhs)
  | evalNe _ id lhs rhs => evalNe 0 id (erase lhs) (erase rhs)
  | evalAnd _ id lhs rhs => evalAnd 0 id (erase lhs) (erase rhs)
  | evalOr _ id lhs rhs => evalOr 0 id (erase lhs) (erase rhs)
  | evalConditional _ id c t f => evalConditional 0 id (erase c) (erase t) (erase f)
  | evalList _ id elems ad => evalList 0 id (erase <$> elems) ad
  | evalMap _ id keys vals ad => evalMap 0 id (erase <$> keys) (erase <$> vals) ad
  | evalObj _ id ty fields vals prov => evalObj 0 id ty fields (erase <$> vals) prov
  | evalFold _ id av accu iv rng c s r =>
    evalFold 0 id av (erase accu) iv (erase rng) (erase c) (erase s) (erase r)
  | evalExtern _ kind parts => evalExtern 0 kind (erase <$> parts)
  end.

(** Two nodes are structurally identical when they differ in addresses
    only. *)
Definition sameStructure (i j : Interpretable) : Prop := erase i = erase j.

(** * Fixtures: collaborators and expressions to run the planner on *)
Module Fixtures.

Definition noTypes : ref.TypeProvider :=
  {| ref.FindType := fun _ => false; ref.FindIdent := fun _ => None |}.

Definition plainAdapter : ref.TypeAdapter := {| ref.NativeToValue := fun v => v |}.

Definition noOverloads : Dispatcher := {| FindOverload := fun _ => None |}.

(** The default package: a name is its own single candidate. *)
Definition rootPackage : packages.Packager :=
  {| packages.Package := ""; packages.ResolveCandidateNames := fun name => [name] |}.

(** Package [a.b]: [a.b.name], [a.name], [name]. *)
Definition packageAB : packages.Packager :=
  {| packages.Package := "a.b";
     packages.ResolveCandidateNames := fun name =>
       ["a.b." +:+ name; "a." +:+ name; name] |}.

(** A dispatcher that registers a variadic-only entry under every name,
    the operators included. *)
Definition variadicOnly : functions.Overload :=
  {| functions.Operator := "any"; functions.OperandTrait := 0;
     functions.Unary := None; functions.Binary := None;
     functions.Function := Some (fun _ => types.Null) |}.

Definition greedyDispatcher : Dispatcher := {| FindOverload := fun _ => Some variadicOnly |}.

(** A decorator in the manner of state tracking: it wraps the node it is
    given in a new node of its own. *)
Definition watch : InterpretableDecorator :=
  fun i a => (Ok (evalExtern a "watch" [i]), S a).

(** A provider that knows the message types [a.T] and [T] only. *)
Definition someTypes : ref.TypeProvider :=
  {| ref.FindType := fun name => bool_decide (name ∈ ["a.T"; "T"]);
     ref.FindIdent := fun _ => None |}.

Definition basePlanner : planner :=
  {| disp := noOverloads; provider := noTypes; adapter := plainAdapter;
     pkg := rootPackage; refMap := ∅; decorators := [] |}.

(** The reference of an enum constant [E.X] of value 7, for node 2. *)
Definition enumRefs : gmap Z Reference :=
  {[ 2%Z := {| Name := "E.X"; OverloadId := []; Value := Some (Constant_Int64Value 7) |} ]}.

(** The reference of a namespaced variable [a.b.v], for node 2. *)
Definition nameRefs : gmap Z Reference :=
  {[ 2%Z := {| Name := "a.b.v"; OverloadId := []; Value := None |} ]}.

Definition enumPlanner : planner := withRefMap enumRefs basePlanner.

Definition watchPlanner : planner :=
  {| disp := noOverloads; provider := noTypes; adapter := plainAdapter;
     pkg := rootPackage; refMap := enumRefs; decorators := [watch] |}.

Definition namespacePlanner : planner :=
  {| disp := noOverloads; provider := noTypes; adapter := plainAdapter;
     pkg := packageAB; refMap := nameRefs; decorators := [] |}.

Definition objectPlanner : planner :=
  {| disp := noOverloads; provider := someTypes; adapter := plainAdapter;
     pkg := packageAB; refMap := ∅; decorators := [] |}.

End Fixtures.

(** * Vocabulary of the further properties *)

(** The nil-safe getter of the value of an entry. *)
Definition GetValue (en : Entry) : Expr :=
  match en with
  | Entry_unset _ v | Entry_FieldKey _ _ v | Entry_MapKey _ _ v => v
  end.

(** The nil-safe getter of the map key of an entry: nil without one. *)
Definition GetMapKey (en : Entry) : Expr :=
  match en with
  | Entry_MapKey _ k _ => k
  | _ => Expr_nil
  end.

Definition hasMapKey (en : Entry) : bool :=
  match en with
  | Entry_MapKey _ _ _ => true
  | _ => false
  end.

(** The keys and values of map entries in the order they are planned: the
    key of an entry, then its value, entry after entry. *)
Definition keysAndValues (entries : list Entry) : list Expr :=
  flat_map (fun en => [GetMapKey en; GetValue en]) entries.

(** A list [k1; v1; k2; v2; ...] split into [k1; k2; ...] and [v1; v2; ...]. *)
Fixpoint unpair {A} (l : list A) : list A * list A :=
  match l with
  | k :: v :: rest => let kvs := unpair rest in (k :: kvs.1, v :: kvs.2)
  | _ => ([], [])
  end.

(** A chain of selects over [root]: each step is the node id, the field
    and the test-only mark of one more select, innermost first. *)
Definition selectChain (root : Expr) (steps : list (Z * string * bool)) : Expr :=
  foldl (fun op step => Expr_SelectExpr step.1.1 op step.1.2 step.2) root steps.

(** The expression kinds at which a chain of selects is no qualified
    name: everything but an identifier, a select and nil. *)
Definition notAName (e : Expr) : Prop :=
  match e with
  | Expr_nil | Expr_IdentExpr _ _ | Expr_SelectExpr _ _ _ _ => False
  | _ => True
  end.

(** Every cached node is an identifier node for the name it is cached
    under, with the provider of the planner. *)
Definition cachedIdents (p : planner) (m : gmap string Interpretable) : Prop :=
  forall name i, m !! name = Some i ->
    exists a id resolver, i = evalIdent a id name (provider p) resolver.

(** A step that keeps a relation [R] between the cache it starts from and
    the cache it ends with. *)
Definition keeps (R : gmap string Interpretable -> gmap string Interpretable -> Prop)
    {A} (c : M A) : Prop :=
  forall st r st', c st = (r, st') -> R (identMap st) (identMap st').

(** A candidate name that neither the bindings nor the provider resolve. *)
Definition unresolved (p : planner) (ctx : Activation) (name : string) : Prop :=
  ResolveName ctx name = None /\ ref.FindIdent (provider p) name = None.

(** A step that does not panic from [st]; one that never does. *)
Definition calmAt {A} (c : M A) (st : pstate) : Prop :=
  forall why, (c st).1 <> Fail (Panic why).

Definition calm {A} (c : M A) : Prop := forall st, calmAt c st.

(** A decorator that returns a node or an error, never a panic. *)
Definition calmDecorator (dec : InterpretableDecorator) : Prop :=
  forall i a why, (dec i a).1 <> Fail (Panic why).

(** Trees as a parser hands them over: no nil sub-expression (the target
    of a call apart), a call named after an operator has the arguments the
    operator reads, and an entry of a map, a struct without a type name,
    has a map key. *)
Fixpoint wellFormed (e : Expr) : bool :=
  match e with
  | Expr_nil => false
  | Expr_unset _ | Expr_ConstExpr _ _ | Expr_IdentExpr _ _ => true
  | Expr_SelectExpr _ operand _ _ => wellFormed operand
  | Expr_CallExpr _ target fnName args =>
    match target with
    | Expr_nil => true
    | _ => wellFormed target
    end
    && forallb wellFormed args
    && (if bool_decide (isOperator fnName)
        then bool_decide (operatorArity fnName <= argCount target args)
        else true)
  | Expr_ListExpr _ elements => forallb wellFormed elements
  | Expr_StructExpr _ messageName entries =>
    forallb (fun en =>
               match en with
               | Entry_MapKey _ k v =>
                 (bool_decide (String.length messageName ≠ 0) || wellFormed k) && wellFormed v
               | Entry_unset _ v | Entry_FieldKey _ _ v =>
                 bool_decide (String.length messageName ≠ 0) && wellFormed v
               end) entries
  | Expr_ComprehensionExpr _ _ iterRange _ accuInit cond step res =>
    wellFormed accuInit && wellFormed iterRange && wellFormed cond
    && wellFormed step && wellFormed res
  end.

(** The same planner with another decorator chain. *)
Definition withDecorators (decs : list InterpretableDecorator) (p : planner) : planner :=
  {| disp := disp p; provider := provider p; adapter := adapter p; pkg := pkg p;
     refMap := refMap p; decorators := decs |}.

(** A decorator that refuses every node. *)
Definition refuse : InterpretableDecorator :=
  fun _ a => (Fail (Error (DecoratorFailure "refused")), a).

(** The names generic dispatch may look up in the dispatcher while a tree
    is planned: for every call that is not named after an operator, its
    overload id when the reference gives one, and its function name. *)
Fixpoint dispatchNames (p : planner) (e : Expr) : list string :=
  match e with
  | Expr_SelectExpr _ operand _ _ => dispatchNames p operand
  | Expr_CallExpr id target fnName args =>
    (if bool_decide (isOperator fnName) then []
     else (if bool_decide (overloadName p id ≠ "") then [overloadName p id] else [])
          ++ [fnName])
    ++ dispatchNames p target ++ flat_map (dispatchNames p) args
  | Expr_ListExpr _ elements => flat_map (dispatchNames p) elements
  | Expr_StructExpr _ _ entries =>
    flat_map (fun en =>
                match en with
                | Entry_MapKey _ k v => dispatchNames p k ++ dispatchNames p v
                | Entry_unset _ v | Entry_FieldKey _ _ v => dispatchNames p v
                end) entries
  | Expr_ComprehensionExpr _ _ iterRange _ accuInit cond step res =>
    dispatchNames p accuInit ++ dispatchNames p iterRange ++ dispatchNames p cond
    ++ dispatchNames p step ++ dispatchNames p res
  | _ => []
  end.

(** A decorator that hands its argument back. *)
Definition passThrough (dec : InterpretableDecorator) : Prop :=
  forall i a, dec i a = (Ok i, a).

(** Reading a literal back from a runtime value: each of the seven value
    kinds the planner builds is the literal of that kind with the same
    payload; any other value is no literal. *)
Definition literalOf (v : types.Val) : option Constant :=
  match v with
  | types.Bool b => Some (Constant_BoolValue b)
  | types.Bytes b => Some (Constant_BytesValue b)
  | types.Double d => Some (Constant_DoubleValue d)
  | types.Int i => Some (Constant_Int64Value i)
  | types.Null => Some Constant_NullValue
  | types.String s => Some (Constant_StringValue s)
  | types.Uint u => Some (Constant_Uint64Value u)
  | types.Dyn _ => None
  end.
(** * Reasoning principles *)

(** ** Induction over expressions, through arguments and entries *)
Section ExprInduction.
Variable P : Expr -> Prop.

Hypothesis case_nil : P Expr_nil.
Hypothesis case_unset : forall id, P (Expr_unset id).
Hypothesis case_const : forall id c, P (Expr_ConstExpr id c).
Hypothesis case_ident : forall id name, P (Expr_IdentExpr id name).
Hypothesis case_select : forall id operand field testOnly,
  P operand -> P (Expr_SelectExpr id operand field testOnly).
Hypothesis case_call : forall id target fn args,
  P target -> Forall P args -> P (Expr_CallExpr id target fn args).
Hypothesis case_list : forall id elements,
  Forall P elements -> P (Expr_ListExpr id elements).
Hypothesis case_struct : forall id messageName entries,
  Forall (EntryAll P) entries -> P (Expr_StructExpr id messageName entries).
Hypothesis case_comprehension : forall id iterVar iterRange accuVar accuInit cond step res,
  P accuInit -> P iterRange -> P cond -> P step -> P res ->
  P (Expr_ComprehensionExpr id iterVar iterRange accuVar accuInit cond step res).

Fixpoint Expr_nested_ind (e : Expr) : P e :=
  match e with
  | Expr_nil => case_nil
  | Expr_unset id => case_unset id
  | Expr_ConstExpr id c => case_const id c
  | Expr_IdentExpr id name => case_ident id name
  | Expr_SelectExpr id operand field testOnly =>
    case_select id operand field testOnly (Expr_nested_ind operand)
  | Expr_CallExpr id target fn args =>
    case_call id target fn args (Expr_nested_ind target)
      ((fix all (es : list Expr) : Forall P es :=
          match es with
          | [] => Forall_nil_2 P
          | x :: rest => Forall_cons_2 P x rest (Expr_nested_ind x) (all rest)
          end) args)
  | Expr_ListExpr id elements =>
    case_list id elements
      ((fix all (es : list Expr) : Forall P es :=
          match es with
          | [] => Forall_nil_2 P
          | x :: rest => Forall_cons_2 P x rest (Expr_nested_ind x) (all rest)
          end) elements)
  | Expr_StructExpr id messageName entries =>
    case_struct id messageName entries
      ((fix all (ens : list Entry) : Forall (EntryAll P) ens :=
          match ens with
          | [] => Forall_nil_2 (EntryAll P)
          | en :: rest =>
            Forall_cons_2 (EntryAll P) en rest
              match en return EntryAll P en with
              | Entry_unset _ v => Expr_nested_ind v
              | Entry_FieldKey _ _ v => Expr_nested_ind v
              | Entry_MapKey _ k v => conj (Expr_nested_ind k) (Expr_nested_ind v)
              end
              (all rest)
          end) entries)
  | Expr_ComprehensionExpr id iterVar iterRange accuVar accuInit cond step res =>
    case_comprehension id iterVar iterRange accuVar accuInit cond step res
      (Expr_nested_ind accuInit) (Expr_nested_ind iterRange) (Expr_nested_ind cond)
      (Expr_nested_ind step) (Expr_nested_ind res)
  end.
End ExprInduction.

(** ** Running the monad *)

Lemma bind_Ok {A B} (c : M A) (k : A -> M B) st x st' :
  c st = (Ok x, st') -> bind c k st = k x st'.
Proof. intros H. unfold bind. by rewrite H. Qed.

Lemma bind_Fail {A B} (c : M A) (k : A -> M B) st f st' :
  c st = (Fail f, st') -> bind c k st = (Fail f, st').
Proof. intros H. unfold bind. by rewrite H. Qed.

Lemma alloc_eq mk st : alloc mk st = (Ok (mk (next st)), bump st).
Proof. reflexivity. Qed.

Lemma index_Some args i x st : args !! i = Some x -> index args i st = (Ok x, st).
Proof. intros H. unfold index. by rewrite H. Qed.

Lemma index_None args i st :
  args !! i = None -> index args i st = (Fail (Panic index_out_of_range), st).
Proof. intros H. unfold index. by rewrite H. Qed.

(** The [Expr_ConstExpr] arm is what [Plan] does on a constant. *)
Lemma Plan_ConstExpr p id c : Plan p (Expr_ConstExpr id c) = Plan_const p (Expr_ConstExpr id c).
Proof. reflexivity. Qed.

(** ** The identifier cache only grows *)

Lemma grows_ret {A} (x : A) : grows (ret x).
Proof. intros st r st' [= _ <-]. done. Qed.

Lemma grows_throw {A} e : grows (@throw A e).
Proof. intros st r st' [= _ <-]. done. Qed.

Lemma grows_panic {A} why : grows (@panic A why).
Proof. intros st r st' [= _ <-]. done. Qed.

Lemma grows_alloc mk : grows (alloc mk).
Proof. intros st r st' [= _ <-]. done. Qed.

Lemma grows_bind {A B} (c : M A) (k : A -> M B) :
  grows c -> (forall x, grows (k x)) -> grows (bind c k).
Proof.
  intros Hc Hk st r st'. unfold bind.
  destruct (c st) as [[x|f] st1] eqn:E.
  - intros Hkx. etrans; [exact (Hc _ _ _ E) | exact (Hk _ _ _ _ Hkx)].
  - intros [= _ <-]. exact (Hc _ _ _ E).
Qed.

Lemma grows_index args i : grows (index args i).
Proof. unfold index. destruct (args !! i); [apply grows_ret | apply grows_panic]. Qed.

Lemma grows_runDecorator dec i : grows (runDecorator dec i).
Proof.
  intros st r st'. unfold runDecorator.
  destruct (dec i (next st)) as [r0 n]. intros [= _ <-]. done.
Qed.

Lemma grows_applyDecorators decs : forall i, grows (applyDecorators decs i).
Proof.
  induction decs as [|dec rest IH]; intros i; simpl.
  - apply grows_ret.
  - apply grows_bind; [apply grows_runDecorator | exact IH].
Qed.

Lemma grows_decorate p step : grows step -> grows (decorate p step).
Proof. intros H. apply grows_bind; [exact H | apply grows_applyDecorators]. Qed.

(** Look the name up, and build and store the node only when it is absent:
    the shape shared by [planIdent] and the static arm of [planSelect]. *)
Lemma grows_cached_or_build name mk :
  grows (cached <~ lookupIdent name ;;
         match cached with
         | Some i => ret i
         | None => i <~ alloc mk ;; _ <~ storeIdent name i ;; ret i
         end).
Proof.
  intros st r st'. unfold bind, lookupIdent. simpl.
  destruct (identMap st !! name) as [i|] eqn:E; simpl.
  - intros [= _ <-]. done.
  - intros [= _ <-]. simpl. by apply insert_subseteq.
Qed.

Lemma grows_planIdent p e : grows (planIdent p e).
Proof.
  destruct e; try apply grows_panic. apply grows_cached_or_build.
Qed.

Lemma grows_constValue c : grows (constValue c).
Proof. destruct c; first [apply grows_ret | apply grows_throw]. Qed.

Lemma grows_planConst e : grows (planConst e).
Proof.
  destruct e; try apply grows_panic.
  apply grows_bind; [apply grows_constValue | intros; apply grows_alloc].
Qed.

Lemma grows_getQualifiedID op : forall ident, grows (getQualifiedID op ident).
Proof.
  induction op; intros ident; simpl;
    first [apply grows_panic | apply grows_ret | done].
Qed.

Section GrowsSteps.
Variable p : planner.
Variable Plan : Expr -> M Interpretable.

Lemma grows_planSelect id operand field testOnly :
  grows (Plan operand) -> grows (planSelect p Plan (Expr_SelectExpr id operand field testOnly)).
Proof.
  intros Hop. unfold planSelect. destruct testOnly.
  - apply grows_bind; [exact Hop | intros; apply grows_alloc].
  - destruct (refMap p !! id) as [idRef|].
    + destruct (Value idRef).
      * apply grows_decorate, grows_planConst.
      * apply grows_cached_or_build.
    + apply grows_bind; [exact Hop | intros op].
      apply grows_bind; [apply grows_getQualifiedID | intros; apply grows_alloc].
Qed.

Lemma grows_planEach es : Forall (fun e => grows (Plan e)) es -> grows (planEach Plan es).
Proof.
  induction 1 as [|e rest He _ IH]; simpl.
  - apply grows_ret.
  - apply grows_bind; [exact He | intros v].
    apply grows_bind; [exact IH | intros; apply grows_ret].
Qed.

Lemma grows_planCallArgs target args :
  grows (Plan target) -> Forall (fun e => grows (Plan e)) args ->
  grows (planCallArgs Plan target args).
Proof.
  intros Ht Ha. pose proof (grows_planEach args Ha) as He.
  assert (grows (arg <~ Plan target ;; rest <~ planEach Plan args ;; ret (arg :: rest))) as Hb.
  { apply grows_bind; [exact Ht | intros a].
    apply grows_bind; [exact He | intros; apply grows_ret]. }
  destruct target; simpl; first [exact He | exact Hb].
Qed.

Ltac grows_step :=
  first [ apply grows_alloc | apply grows_throw | apply grows_panic | apply grows_ret
        | apply grows_index
        | apply grows_bind; [| intros ?] ].

Lemma grows_dispatch id fn oName impl args :
  grows (planCallZero id fn oName impl) /\
  grows (planCallUnary id fn oName impl args) /\
  grows (planCallBinary id fn oName impl args) /\
  grows (planCallVarArgs id fn oName impl args).
Proof.
  unfold planCallZero, planCallUnary, planCallBinary, planCallVarArgs.
  destruct impl as [o|];
    [destruct (functions.Function o), (functions.Unary o), (functions.Binary o)|];
    repeat split; repeat grows_step.
Qed.

Lemma grows_operators id args :
  grows (planCallLogicalAnd id args) /\ grows (planCallLogicalOr id args) /\
  grows (planCallConditional id args) /\ grows (planCallEqual id args) /\
  grows (planCallNotEqual id args).
Proof.
  unfold planCallLogicalAnd, planCallLogicalOr, planCallConditional,
    planCallEqual, planCallNotEqual.
  repeat split; repeat grows_step.
Qed.

Lemma grows_planCall id target fn args :
  grows (Plan target) -> Forall (fun e => grows (Plan e)) args ->
  grows (planCall p Plan (Expr_CallExpr id target fn args)).
Proof.
  intros Ht Ha. unfold planCall.
  apply grows_bind; [by apply grows_planCallArgs | intros vs].
  destruct (grows_operators id vs) as (H1 & H2 & H3 & H4 & H5).
  repeat case_bool_decide; try done.
  destruct (grows_dispatch id fn (overloadName p id)
              (findImpl p fn (overloadName p id)) vs) as (G0 & G1 & G2 & G3).
  destruct (length vs) as [|[|[|n]]]; done.
Qed.

Lemma grows_planCreateList id elements :
  Forall (fun e => grows (Plan e)) elements ->
  grows (planCreateList p Plan (Expr_ListExpr id elements)).
Proof.
  intros H. unfold planCreateList.
  apply grows_bind; [by apply grows_planEach | intros; apply grows_alloc].
Qed.

Lemma grows_planEntryValue en :
  EntryAll (fun e => grows (Plan e)) en -> grows (planEntryValue Plan en).
Proof. destruct en; simpl; tauto. Qed.

Lemma grows_planEntryMapKey en :
  EntryAll (fun e => grows (Plan e)) en -> grows (planEntryMapKey Plan en).
Proof. destruct en; simpl; first [intros; apply grows_panic | tauto]. Qed.

Lemma grows_planObjEntries ens :
  Forall (EntryAll (fun e => grows (Plan e))) ens -> grows (planObjEntries Plan ens).
Proof.
  induction 1 as [|en rest He _ IH]; simpl.
  - apply grows_ret.
  - apply grows_bind; [by apply grows_planEntryValue | intros v].
    apply grows_bind; [exact IH | intros; apply grows_ret].
Qed.

Lemma grows_planMapEntries ens :
  Forall (EntryAll (fun e => grows (Plan e))) ens -> grows (planMapEntries Plan ens).
Proof.
  induction 1 as [|en rest He _ IH]; simpl.
  - apply grows_ret.
  - apply grows_bind; [by apply grows_planEntryMapKey | intros k].
    apply grows_bind; [by apply grows_planEntryValue | intros v].
    apply grows_bind; [exact IH | intros; apply grows_ret].
Qed.

Lemma grows_planCreateObj id messageName entries :
  Forall (EntryAll (fun e => grows (Plan e))) entries ->
  grows (planCreateObj p Plan (Expr_StructExpr id messageName entries)).
Proof.
  intros H. unfold planCreateObj.
  destruct (resolveTypeName p _ messageName) as [typeName [|]]; simpl.
  - apply grows_bind; [by apply grows_planObjEntries | intros; apply grows_alloc].
  - apply grows_throw.
Qed.

Lemma grows_planCreateStruct id messageName entries :
  Forall (EntryAll (fun e => grows (Plan e))) entries ->
  grows (planCreateStruct p Plan (Expr_StructExpr id messageName entries)).
Proof.
  intros H. unfold planCreateStruct. case_bool_decide.
  - by apply grows_planCreateObj.
  - apply grows_bind; [by apply grows_planMapEntries | intros; apply grows_alloc].
Qed.

Lemma grows_planComprehension id iterVar iterRange accuVar accuInit cond step res :
  grows (Plan accuInit) -> grows (Plan iterRange) -> grows (Plan cond) ->
  grows (Plan step) -> grows (Plan res) ->
  grows (planComprehension Plan
           (Expr_ComprehensionExpr id iterVar iterRange accuVar accuInit cond step res)).
Proof.
  intros H1 H2 H3 H4 H5. unfold planComprehension.
  repeat (apply grows_bind; [done | intros ?]). apply grows_alloc.
Qed.
End GrowsSteps.

(** No planning step ever removes or replaces a cache entry. *)
Lemma Plan_grows p e : grows (Plan p e).
Proof.
  induction e using Expr_nested_ind; cbn [Plan].
  - apply grows_panic.
  - apply grows_throw.
  - apply grows_decorate, grows_planConst.
  - apply grows_decorate, grows_planIdent.
  - by apply grows_decorate, grows_planSelect.
  - by apply grows_decorate, grows_planCall.
  - by apply grows_decorate, grows_planCreateList.
  - by apply grows_decorate, grows_planCreateStruct.
  - by apply grows_decorate, grows_planComprehension.
Qed.

(** ** The two routes of [planCall] after its arguments are planned *)

Lemma isOperator_cases fnName :
  isOperator fnName <->
  fnName = operators.LogicalAnd \/ fnName = operators.LogicalOr \/
  fnName = operators.Conditional \/ fnName = operators.Equals \/
  fnName = operators.NotEquals.
Proof.
  unfold isOperator. rewrite !elem_of_cons, elem_of_nil. tauto.
Qed.

Lemma planCall_operator p Plan id target fnName callArgs st args st1 :
  isOperator fnName ->
  planCallArgs Plan target callArgs st = (Ok args, st1) ->
  planCall p Plan (Expr_CallExpr id target fnName callArgs) st =
  (if bool_decide (fnName = operators.LogicalAnd) then planCallLogicalAnd id args
   else if bool_decide (fnName = operators.LogicalOr) then planCallLogicalOr id args
   else if bool_decide (fnName = operators.Conditional) then planCallConditional id args
   else if bool_decide (fnName = operators.Equals) then planCallEqual id args
   else planCallNotEqual id args) st1.
Proof.
  intros Hop Hargs. unfold planCall. rewrite (bind_Ok _ _ _ _ _ Hargs).
  apply isOperator_cases in Hop.
  repeat case_bool_decide; try reflexivity.
  destruct Hop as [?|[?|[?|[?|?]]]]; congruence.
Qed.

Lemma planCall_generic p Plan id target fnName callArgs st args st1 :
  ~ isOperator fnName ->
  planCallArgs Plan target callArgs st = (Ok args, st1) ->
  planCall p Plan (Expr_CallExpr id target fnName callArgs) st =
  let oName := overloadName p id in
  let fnDef := findImpl p fnName oName in
  match length args with
  | 0 => planCallZero id fnName oName fnDef
  | 1 => planCallUnary id fnName oName fnDef args
  | 2 => planCallBinary id fnName oName fnDef args
  | _ => planCallVarArgs id fnName oName fnDef args
  end st1.
Proof.
  intros Hop Hargs. unfold planCall. rewrite (bind_Ok _ _ _ _ _ Hargs).
  rewrite isOperator_cases in Hop.
  repeat case_bool_decide; try reflexivity; exfalso; apply Hop; tauto.
Qed.

Lemma planEach_length Plan es : forall st vs st',
  planEach Plan es st = (Ok vs, st') -> length vs = length es.
Proof.
  induction es as [|e rest IH]; intros st vs st'; simpl.
  - by intros [= <- _].
  - unfold bind at 1. destruct (Plan e st) as [[v|f] s1]; [|done].
    unfold bind at 1. destruct (planEach Plan rest s1) as [[ws|f] s2] eqn:E; [|done].
    intros [= <- _]. simpl. f_equal. eapply IH, E.
Qed.

Lemma planCallArgs_length Plan target callArgs st args st' :
  planCallArgs Plan target callArgs st = (Ok args, st') ->
  length args = argCount target callArgs.
Proof.
  assert (forall s, (arg <~ Plan target ;; rest <~ planEach Plan callArgs ;; ret (arg :: rest)) s
                    = (Ok args, st') -> length args = S (length callArgs)) as Hb.
  { intros s. unfold bind at 1. destruct (Plan target s) as [[v|f] s1]; [|done].
    unfold bind at 1. destruct (planEach Plan callArgs s1) as [[ws|f] s2] eqn:E; [|done].
    intros [= <- _]. simpl. f_equal. eapply planEach_length, E. }
  destruct target; simpl; first [apply planEach_length | apply Hb].
Qed.

(** ** Object construction: the candidate loop *)

Lemma resolveTypeName_none p candidates typeName :
  (forall c, c ∈ candidates -> ref.FindType (provider p) c = false) ->
  resolveTypeName p candidates typeName = (typeName, false).
Proof.
  induction candidates as [|c rest IH]; intros Hnone; simpl; [done|].
  rewrite (Hnone c) by (apply elem_of_cons; by left).
  apply IH. intros c' Hc'. apply Hnone, elem_of_cons. by right.
Qed.

Lemma resolveTypeName_first p before q after typeName :
  (forall c, c ∈ before -> ref.FindType (provider p) c = false) ->
  ref.FindType (provider p) q = true ->
  resolveTypeName p (before ++ q :: after) typeName = (q, true).
Proof.
  induction before as [|c rest IH]; intros Hnone Hq; simpl.
  - by rewrite Hq.
  - rewrite (Hnone c) by (apply elem_of_cons; by left).
    apply IH; [|done]. intros c' Hc'. apply Hnone, elem_of_cons. by right.
Qed.

(** ** Sequences of plans *)

Lemma planEach_first_failure Plan planned failing later : forall st vs st1 f st2,
  planEach Plan planned st = (Ok vs, st1) ->
  Plan failing st1 = (Fail f, st2) ->
  planEach Plan (planned ++ failing :: later) st = (Fail f, st2).
Proof.
  induction planned as [|e rest IH]; intros st vs st1 f st2; simpl.
  - intros [= _ <-] Hfail. by rewrite (bind_Fail _ _ _ _ _ Hfail).
  - unfold bind at 1 3. destruct (Plan e st) as [[v|f0] s1]; [|done].
    unfold bind at 1 2.
    destruct (planEach Plan rest s1) as [[ws|f0] s2] eqn:E; [|done].
    intros [= _ <-] Hfail. by rewrite (IH _ _ _ _ _ E Hfail).
Qed.

Lemma planComprehension_planEach Plan id iterVar iterRange accuVar accuInit cond step res st :
  planComprehension Plan
    (Expr_ComprehensionExpr id iterVar iterRange accuVar accuInit cond step res) st =
  (vs <~ planEach Plan (foldOrder accuInit iterRange cond step res) ;;
   match vs with
   | [accu; rng; c; s; r] => alloc (fun a => evalFold a id accuVar accu iterVar rng c s r)
   | _ => panic index_out_of_range
   end) st.
Proof.
  unfold planComprehension, foldOrder, planEach, bind, ret.
  destruct (Plan accuInit st) as [[v1|f] s1]; [|done].
  destruct (Plan iterRange s1) as [[v2|f] s2]; [|done].
  destruct (Plan cond s2) as [[v3|f] s3]; [|done].
  destruct (Plan step s3) as [[v4|f] s4]; [|done].
  destruct (Plan res s4) as [[v5|f] s5]; done.
Qed.

(** ** The identifier cache across a compilation *)

Lemma planAll_grows p es : forall st, identMap st ⊆ identMap (planAll p es st).
Proof.
  induction es as [|e rest IH]; intros st; simpl; [done|].
  etrans; [|apply IH].
  destruct (Plan p e st) as [r st'] eqn:E. simpl. exact (Plan_grows _ _ _ _ _ E).
Qed.

Lemma planAll_keeps p es st name i :
  identMap st !! name = Some i -> identMap (planAll p es st) !! name = Some i.
Proof. intros H. eapply lookup_weaken; [exact H | apply planAll_grows]. Qed.

(** With an empty chain, [decorate] hands the step's outcome back. *)
Lemma decorate_nil p step st : decorators p = [] -> decorate p step st = step st.
Proof.
  intros Hnil. unfold decorate, bind. rewrite Hnil.
  by destruct (step st) as [[i|f] st'].
Qed.

Lemma decorate_Ok p step st i st' :
  step st = (Ok i, st') -> decorate p step st = applyDecorators (decorators p) i st'.
Proof. intros H. unfold decorate. by rewrite (bind_Ok _ _ _ _ _ H). Qed.

Lemma Plan_planNamed p e name :
  namesIdent p e name -> Plan p e = decorate p (planNamed p e).
Proof. by destruct 1. Qed.

(** A cached name is handed back as it is, and the state is left alone. *)
Lemma planNamed_cached p e name st i :
  namesIdent p e name -> identMap st !! name = Some i ->
  planNamed p e st = (Ok i, st).
Proof.
  destruct 1 as [id name | id operand field idRef Href Hval]; intros Hcached; simpl.
  - unfold bind, lookupIdent. by rewrite Hcached.
  - rewrite Href, Hval. unfold bind, lookupIdent. by rewrite Hcached.
Qed.

(** A name that is not cached is built, at the next address, and stored. *)
Lemma planIdent_fresh p id name st :
  identMap st !! name = None ->
  let resolver := if bool_decide (packages.Package (pkg p) ≠ "")
                  then Some (idResolver p name) else None in
  let i := evalIdent (next st) id name (provider p) resolver in
  planIdent p (Expr_IdentExpr id name) st
  = (Ok i, {| identMap := <[name := i]> (identMap st); next := S (next st) |}).
Proof. intros Hnone. simpl. unfold bind, lookupIdent. by rewrite Hnone. Qed.

Lemma planSelect_static_fresh p Plan id operand field idRef st :
  refMap p !! id = Some idRef -> Value idRef = None ->
  identMap st !! Name idRef = None ->
  let i := evalIdent (next st) id (Name idRef) (provider p) None in
  planSelect p Plan (Expr_SelectExpr id operand field false) st
  = (Ok i, {| identMap := <[Name idRef := i]> (identMap st); next := S (next st) |}).
Proof.
  intros Href Hval Hnone. simpl. rewrite Href, Hval.
  unfold bind, lookupIdent. by rewrite Hnone.
Qed.

(** Either way the step returns a node, and the cache holds it. *)
Lemma planNamed_total p e name st :
  namesIdent p e name ->
  exists i st1, planNamed p e st = (Ok i, st1) /\ identMap st1 !! name = Some i.
Proof.
  intros Hn. destruct (identMap st !! name) as [i|] eqn:Hc.
  - exists i, st. split; [by eapply planNamed_cached | done].
  - destruct Hn as [id name | id operand field idRef Href Hval].
    + eexists _, _. split; [by apply planIdent_fresh|]. simpl. apply lookup_insert_eq.
    + eexists _, _. split; [by apply planSelect_static_fresh|]. simpl. apply lookup_insert_eq.
Qed.

(** ** Decorator chains *)

Lemma applyDecorators_app ds1 ds2 : forall i st,
  applyDecorators (ds1 ++ ds2) i st
  = (i' <~ applyDecorators ds1 i ;; applyDecorators ds2 i') st.
Proof.
  induction ds1 as [|dec rest IH]; intros i st; simpl; [reflexivity|].
  unfold bind.
  destruct (runDecorator dec i st) as [[i1|f] st1]; [|reflexivity].
  rewrite IH. reflexivity.
Qed.

Lemma runDecorator_eq dec i st r n :
  dec i (next st) = (r, n) ->
  runDecorator dec i st = (r, {| identMap := identMap st; next := n |}).
Proof. intros H. unfold runDecorator. by rewrite H. Qed.

(** ** Qualified names *)

Lemma concat_dot_last (parts : list string) (f s : string) :
  String.concat "." (parts ++ [f +:+ "." +:+ s]) = String.concat "." (parts ++ [f; s]).
Proof.
  induction parts as [|x rest IH]; [reflexivity|].
  change ((x :: rest) ++ [f +:+ "." +:+ s]) with (x :: (rest ++ [f +:+ "." +:+ s])).
  change ((x :: rest) ++ [f; s]) with (x :: (rest ++ [f; s])).
  destruct rest as [|y rest']; [reflexivity|].
  simpl in *. by rewrite IH.
Qed.

Lemma selectChain_snoc root steps step :
  selectChain root (steps ++ [step])
  = Expr_SelectExpr step.1.1 (selectChain root steps) step.1.2 step.2.
Proof. unfold selectChain. by rewrite foldl_app. Qed.

(** Walking down a chain of selects prefixes the fields of the chain. *)
Lemma getQualifiedID_chain root steps : forall ident,
  getQualifiedID (selectChain root steps) ident
  = getQualifiedID root (String.concat "." (((fun step => step.1.2) <$> steps) ++ [ident])).
Proof.
  induction steps as [|step steps IH] using rev_ind; intros ident; [reflexivity|].
  rewrite selectChain_snoc. cbn [getQualifiedID]. rewrite IH.
  rewrite !fmap_app. simpl. rewrite <- app_assoc. simpl.
  by rewrite concat_dot_last.
Qed.

(** ** Loops over entries *)

Lemma planObjEntries_planEach Plan entries : forall st,
  planObjEntries Plan entries st = planEach Plan (GetValue <$> entries) st.
Proof.
  induction entries as [|en rest IH]; intros st; [reflexivity|].
  simpl. unfold bind.
  replace (planEntryValue Plan en st) with (Plan (GetValue en) st) by by destruct en.
  destruct (Plan (GetValue en) st) as [[v|f] st1]; [|reflexivity].
  by rewrite IH.
Qed.

Lemma planMapEntries_planEach Plan entries : forall st,
  forallb hasMapKey entries = true ->
  planMapEntries Plan entries st
  = (vs <~ planEach Plan (keysAndValues entries) ;; ret (unpair vs)) st.
Proof.
  induction entries as [|en rest IH]; intros st Hkeys; [reflexivity|].
  simpl in Hkeys. apply andb_true_iff in Hkeys as [Hen Hrest].
  destruct en as [| |eid k v]; try discriminate Hen.
  simpl. unfold bind, ret.
  destruct (Plan k st) as [[kv|f] st1]; [|reflexivity].
  destruct (Plan v st1) as [[vv|f] st2]; [|reflexivity].
  rewrite (IH st2 Hrest). unfold bind, ret.
  by destruct (planEach Plan (keysAndValues rest) st2) as [[vs|f] st3].
Qed.

Lemma planMapEntries_missing_key Plan before en after : forall st,
  forallb hasMapKey before = true ->
  hasMapKey en = false ->
  forall vs st1,
    planEach Plan (keysAndValues before) st = (Ok vs, st1) ->
    planMapEntries Plan (before ++ en :: after) st = (Fail (Panic nil_dereference), st1).
Proof.
  induction before as [|b rest IH]; intros st Hkeys Hen vs st1.
  - simpl. intros [= _ <-]. by destruct en.
  - simpl in Hkeys. apply andb_true_iff in Hkeys as [Hb Hrest].
    destruct b as [| |eid k v]; try discriminate Hb.
    simpl. unfold bind, ret.
    destruct (Plan k st) as [[kv|f] s1]; [|done].
    destruct (Plan v s1) as [[vv|f] s2]; [|done].
    destruct (planEach Plan (keysAndValues rest) s2) as [[ws|f] s3] eqn:E; [|done].
    intros [= _ <-]. by rewrite (IH s2 Hrest Hen ws s3 E).
Qed.

(** ** The namespace walk of [idResolver] *)

Lemma idResolver_none p ident ctx :
  (forall c, c ∈ packages.ResolveCandidateNames (pkg p) ident -> unresolved p ctx c) ->
  idResolver p ident ctx = None.
Proof.
  unfold idResolver.
  induction (packages.ResolveCandidateNames (pkg p) ident) as [|c rest IH]; intros Hun; [done|].
  destruct (Hun c) as [Hctx Hprov]; [apply elem_of_cons; by left|].
  rewrite Hctx, Hprov. apply IH. intros c' Hc'. apply Hun, elem_of_cons. by right.
Qed.

Lemma idResolver_skip p ident ctx before rest :
  packages.ResolveCandidateNames (pkg p) ident = before ++ rest ->
  (forall b, b ∈ before -> unresolved p ctx b) ->
  idResolver p ident ctx
  = (fix walk (ids : list string) : option types.Val :=
       match ids with
       | [] => None
       | id :: rest =>
         match ResolveName ctx id with
         | Some object => Some object
         | None =>
           match ref.FindIdent (provider p) id with
           | Some typeIdent => Some typeIdent
           | None => walk rest
           end
         end
       end) rest.
Proof.
  unfold idResolver. intros ->.
  induction before as [|b more IH]; intros Hun; [done|].
  destruct (Hun b) as [Hctx Hprov]; [apply elem_of_cons; by left|].
  simpl. rewrite Hctx, Hprov. apply IH. intros c' Hc'. apply Hun, elem_of_cons. by right.
Qed.

(** ** Relations the identifier cache keeps

    A relation between caches that is reflexive and transitive, and that
    holds from a cache to the cache with one more identifier node, built for
    an absent name, holds across every planning step. *)
Section Keeps.
Variable p : planner.
Variable R : gmap string Interpretable -> gmap string Interpretable -> Prop.
Hypothesis R_refl : forall m, R m m.
Hypothesis R_trans : forall m1 m2 m3, R m1 m2 -> R m2 m3 -> R m1 m3.
Hypothesis R_build : forall m a id name resolver,
  m !! name = None -> R m (<[name := evalIdent a id name (provider p) resolver]> m).

Lemma keeps_ret {A} (x : A) : keeps R (ret x).
Proof using R_refl. intros st r st' [= _ <-]. apply R_refl. Qed.

Lemma keeps_throw {A} e : keeps R (@throw A e).
Proof using R_refl. intros st r st' [= _ <-]. apply R_refl. Qed.

Lemma keeps_panic {A} why : keeps R (@panic A why).
Proof using R_refl. intros st r st' [= _ <-]. apply R_refl. Qed.

Lemma keeps_alloc mk : keeps R (alloc mk).
Proof using R_refl. intros st r st' [= _ <-]. apply R_refl. Qed.

Lemma keeps_bind {A B} (c : M A) (k : A -> M B) :
  keeps R c -> (forall x, keeps R (k x)) -> keeps R (bind c k).
Proof using R_trans.
  intros Hc Hk st r st'. unfold bind.
  destruct (c st) as [[x|f] st1] eqn:E.
  - intros Hkx. eapply R_trans; [exact (Hc _ _ _ E) | exact (Hk _ _ _ _ Hkx)].
  - intros [= _ <-]. exact (Hc _ _ _ E).
Qed.

Lemma keeps_index args i : keeps R (index args i).
Proof using R_refl.
  unfold index. destruct (args !! i); [apply keeps_ret | apply keeps_panic].
Qed.

Lemma keeps_runDecorator dec i : keeps R (runDecorator dec i).
Proof using R_refl.
  intros st r st'. unfold runDecorator.
  destruct (dec i (next st)) as [r0 n]. intros [= _ <-]. apply R_refl.
Qed.

Lemma keeps_applyDecorators decs : forall i, keeps R (applyDecorators decs i).
Proof using R_refl R_trans.
  induction decs as [|dec rest IH]; intros i; simpl.
  - apply keeps_ret.
  - apply keeps_bind; [apply keeps_runDecorator | exact IH].
Qed.

Lemma keeps_cached_or_build name id resolver :
  keeps R (cached <~ lookupIdent name ;;
           match cached with
           | Some i => ret i
           | None =>
             i <~ alloc (fun a => evalIdent a id name (provider p) resolver) ;;
             _ <~ storeIdent name i ;; ret i
           end).
Proof using R_refl R_build.
  intros st r st'. unfold bind, lookupIdent. simpl.
  destruct (identMap st !! name) as [i|] eqn:E; simpl.
  - intros [= _ <-]. apply R_refl.
  - intros [= _ <-]. simpl. by apply R_build.
Qed.

Lemma keeps_getQualifiedID op : forall ident, keeps R (getQualifiedID op ident).
Proof using R_refl.
  induction op; intros ident; simpl;
    first [apply keeps_panic | apply keeps_ret | done].
Qed.

Ltac keeps_step :=
  first [ assumption
        | apply keeps_ret | apply keeps_throw | apply keeps_panic | apply keeps_alloc
        | apply keeps_index | apply keeps_applyDecorators | apply keeps_cached_or_build
        | apply keeps_getQualifiedID
        | apply keeps_bind; [| intros ?]
        | match goal with
          | |- keeps _ (match ?x with _ => _ end) => destruct x
          | |- keeps _ (let '(_, _) := ?x in _) => destruct x
          end ].

Lemma keeps_decorate step : keeps R step -> keeps R (decorate p step).
Proof using R_refl R_trans. intros H. unfold decorate. repeat keeps_step. Qed.

Lemma keeps_planIdent e : keeps R (planIdent p e).
Proof using R_refl R_build. unfold planIdent. repeat keeps_step. Qed.

Lemma keeps_planConst e : keeps R (planConst e).
Proof using R_refl R_trans. unfold planConst, constValue. repeat keeps_step. Qed.

Variable Plan : Expr -> M Interpretable.

Lemma keeps_planSelect id operand field testOnly :
  keeps R (Plan operand) ->
  keeps R (planSelect p Plan (Expr_SelectExpr id operand field testOnly)).
Proof using R_refl R_trans R_build.
  intros Hop. unfold planSelect, Plan_const.
  destruct testOnly; [repeat keeps_step|].
  destruct (refMap p !! id) as [idRef|]; [|repeat keeps_step].
  destruct (Value idRef); [apply keeps_decorate, keeps_planConst|].
  apply keeps_cached_or_build.
Qed.

Lemma keeps_planEach es : Forall (fun e => keeps R (Plan e)) es -> keeps R (planEach Plan es).
Proof using R_refl R_trans. induction 1; simpl; repeat keeps_step. Qed.

Lemma keeps_planCall id target fn args :
  keeps R (Plan target) -> Forall (fun e => keeps R (Plan e)) args ->
  keeps R (planCall p Plan (Expr_CallExpr id target fn args)).
Proof using R_refl R_trans.
  intros Ht Ha. pose proof (keeps_planEach args Ha) as He.
  unfold planCall. apply keeps_bind.
  { assert (keeps R (arg <~ Plan target ;; rest <~ planEach Plan args ;; ret (arg :: rest)))
      by repeat keeps_step.
    destruct target; simpl; assumption. }
  intros vs.
  unfold planCallLogicalAnd, planCallLogicalOr, planCallConditional, planCallEqual,
    planCallNotEqual, planCallZero, planCallUnary, planCallBinary, planCallVarArgs.
  repeat case_bool_decide; repeat keeps_step.
Qed.

Lemma keeps_planCreateList id elements :
  Forall (fun e => keeps R (Plan e)) elements ->
  keeps R (planCreateList p Plan (Expr_ListExpr id elements)).
Proof using R_refl R_trans.
  intros H. pose proof (keeps_planEach _ H). unfold planCreateList. repeat keeps_step.
Qed.

Lemma keeps_planEntryValue en :
  EntryAll (fun e => keeps R (Plan e)) en -> keeps R (planEntryValue Plan en).
Proof. destruct en; simpl; tauto. Qed.

Lemma keeps_planEntryMapKey en :
  EntryAll (fun e => keeps R (Plan e)) en -> keeps R (planEntryMapKey Plan en).
Proof using R_refl. destruct en; simpl; first [intros; apply keeps_panic | tauto]. Qed.

Lemma keeps_planObjEntries ens :
  Forall (EntryAll (fun e => keeps R (Plan e))) ens -> keeps R (planObjEntries Plan ens).
Proof using R_refl R_trans.
  induction 1 as [|en rest He _ IH]; simpl; [apply keeps_ret|].
  pose proof (keeps_planEntryValue _ He). repeat keeps_step.
Qed.

Lemma keeps_planMapEntries ens :
  Forall (EntryAll (fun e => keeps R (Plan e))) ens -> keeps R (planMapEntries Plan ens).
Proof using R_refl R_trans.
  induction 1 as [|en rest He _ IH]; simpl; [apply keeps_ret|].
  pose proof (keeps_planEntryValue _ He). pose proof (keeps_planEntryMapKey _ He).
  repeat keeps_step.
Qed.

Lemma keeps_planCreateStruct id messageName entries :
  Forall (EntryAll (fun e => keeps R (Plan e))) entries ->
  keeps R (planCreateStruct p Plan (Expr_StructExpr id messageName entries)).
Proof using R_refl R_trans.
  intros H. pose proof (keeps_planObjEntries _ H). pose proof (keeps_planMapEntries _ H).
  unfold planCreateStruct, planCreateObj. case_bool_decide; repeat keeps_step.
Qed.

Lemma keeps_planComprehension id iterVar iterRange accuVar accuInit cond step res :
  keeps R (Plan accuInit) -> keeps R (Plan iterRange) -> keeps R (Plan cond) ->
  keeps R (Plan step) -> keeps R (Plan res) ->
  keeps R (planComprehension Plan
             (Expr_ComprehensionExpr id iterVar iterRange accuVar accuInit cond step res)).
Proof using R_refl R_trans. intros. unfold planComprehension. repeat keeps_step. Qed.

End Keeps.

Lemma Plan_keeps p R :
  (forall m, R m m) ->
  (forall m1 m2 m3, R m1 m2 -> R m2 m3 -> R m1 m3) ->
  (forall m a id name resolver,
     m !! name = None -> R m (<[name := evalIdent a id name (provider p) resolver]> m)) ->
  forall e, keeps R (Plan p e).
Proof.
  intros Hrefl Htrans Hbuild e.
  induction e using Expr_nested_ind; cbn [Plan].
  - by apply keeps_panic.
  - by apply keeps_throw.
  - by apply keeps_decorate, keeps_planConst.
  - by apply keeps_decorate, keeps_planIdent.
  - by apply keeps_decorate, keeps_planSelect.
  - by apply keeps_decorate, keeps_planCall.
  - by apply keeps_decorate, keeps_planCreateList.
  - by apply keeps_decorate, keeps_planCreateStruct.
  - by apply keeps_decorate, keeps_planComprehension.
Qed.

(** ** Steps that do not panic *)

Lemma calmAt_bind {A B} (c : M A) (k : A -> M B) st :
  calmAt c st ->
  (forall x st', c st = (Ok x, st') -> calmAt (k x) st') ->
  calmAt (bind c k) st.
Proof.
  intros Hc Hk why. unfold bind. specialize (Hc why).
  destruct (c st) as [[x|f] st1] eqn:E; simpl in *.
  - by apply Hk.
  - intros [= ->]. by apply Hc.
Qed.

Lemma calm_bind {A B} (c : M A) (k : A -> M B) :
  calm c -> (forall x, calm (k x)) -> calm (bind c k).
Proof. intros Hc Hk st. apply calmAt_bind; [apply Hc | intros; apply Hk]. Qed.

Lemma calm_ret {A} (x : A) : calm (ret x).
Proof. by intros st why. Qed.

Lemma calm_throw {A} e : calm (@throw A e).
Proof. by intros st why. Qed.

Lemma calm_alloc mk : calm (alloc mk).
Proof. by intros st why. Qed.

Lemma calm_runDecorator dec i : calmDecorator dec -> calm (runDecorator dec i).
Proof.
  intros Hdec st why. unfold runDecorator. specialize (Hdec i (next st) why).
  by destruct (dec i (next st)) as [r n].
Qed.

Lemma calm_applyDecorators decs :
  Forall calmDecorator decs -> forall i, calm (applyDecorators decs i).
Proof.
  induction 1 as [|dec rest Hdec _ IH]; intros i; simpl.
  - apply calm_ret.
  - apply calm_bind; [by apply calm_runDecorator | exact IH].
Qed.

Lemma calm_cached_or_build name mk :
  calm (cached <~ lookupIdent name ;;
        match cached with
        | Some i => ret i
        | None => i <~ alloc mk ;; _ <~ storeIdent name i ;; ret i
        end).
Proof.
  intros st why. unfold bind, lookupIdent. simpl. by destruct (identMap st !! name).
Qed.

Lemma calm_planConst id c : calm (planConst (Expr_ConstExpr id c)).
Proof. intros st why. by destruct c. Qed.

Lemma calm_getQualifiedID op :
  wellFormed op = true -> forall ident, calm (getQualifiedID op ident).
Proof.
  induction op; intros Hwf ident; simpl in *;
    first [discriminate | apply calm_ret | by apply IHop].
Qed.

Lemma calm_operators id fn args :
  isOperator fn -> operatorArity fn <= length args ->
  calm (if bool_decide (fn = operators.LogicalAnd) then planCallLogicalAnd id args
        else if bool_decide (fn = operators.LogicalOr) then planCallLogicalOr id args
        else if bool_decide (fn = operators.Conditional) then planCallConditional id args
        else if bool_decide (fn = operators.Equals) then planCallEqual id args
        else planCallNotEqual id args).
Proof.
  intros Hop Hlen. apply isOperator_cases in Hop.
  destruct Hop as [-> | [-> | [-> | [-> | ->]]]];
    destruct args as [|x [|y [|z rest]]]; cbv in Hlen; try lia;
    by intros st why.
Qed.

Lemma calm_dispatch id fn oName impl args :
  calm (match length args with
        | 0 => planCallZero id fn oName impl
        | 1 => planCallUnary id fn oName impl args
        | 2 => planCallBinary id fn oName impl args
        | _ => planCallVarArgs id fn oName impl args
        end).
Proof.
  unfold planCallZero, planCallUnary, planCallBinary, planCallVarArgs.
  destruct impl as [o|];
    [destruct (functions.Function o), (functions.Unary o), (functions.Binary o)|];
    destruct args as [|x [|y [|z rest]]]; by intros st why.
Qed.

Section Calm.
Variable p : planner.
Hypothesis calm_decorators : Forall calmDecorator (decorators p).
Variable Plan : Expr -> M Interpretable.

Lemma calm_decorate step : calm step -> calm (decorate p step).
Proof using calm_decorators.
  intros H. apply calm_bind; [exact H | by apply calm_applyDecorators].
Qed.

Lemma calm_planSelect id operand field testOnly :
  wellFormed operand = true -> calm (Plan operand) ->
  calm (planSelect p Plan (Expr_SelectExpr id operand field testOnly)).
Proof using calm_decorators.
  intros Hwf Hop. unfold planSelect. destruct testOnly.
  - apply calm_bind; [exact Hop | intros; apply calm_alloc].
  - destruct (refMap p !! id) as [idRef|].
    + destruct (Value idRef).
      * apply calm_decorate, calm_planConst.
      * apply calm_cached_or_build.
    + apply calm_bind; [exact Hop | intros op].
      apply calm_bind; [by apply calm_getQualifiedID | intros; apply calm_alloc].
Qed.

Lemma calm_planEach es : Forall (fun e => calm (Plan e)) es -> calm (planEach Plan es).
Proof.
  induction 1 as [|e rest He _ IH]; simpl.
  - apply calm_ret.
  - apply calm_bind; [exact He | intros v].
    apply calm_bind; [exact IH | intros; apply calm_ret].
Qed.

Lemma calm_planCallArgs target args :
  (target <> Expr_nil -> calm (Plan target)) ->
  Forall (fun e => calm (Plan e)) args ->
  calm (planCallArgs Plan target args).
Proof.
  intros Ht Ha. pose proof (calm_planEach args Ha) as He.
  destruct target; simpl; try exact He;
    (apply calm_bind; [by apply Ht | intros a];
     apply calm_bind; [exact He | intros; apply calm_ret]).
Qed.

Lemma calm_planCall id target fn args :
  (target <> Expr_nil -> calm (Plan target)) ->
  Forall (fun e => calm (Plan e)) args ->
  (isOperator fn -> operatorArity fn <= argCount target args) ->
  calm (planCall p Plan (Expr_CallExpr id target fn args)).
Proof.
  intros Ht Ha Harity st. unfold planCall.
  apply calmAt_bind; [by apply calm_planCallArgs|].
  intros vs st' Hvs. apply planCallArgs_length in Hvs.
  destruct (decide (isOperator fn)) as [Hop|Hop].
  - pose proof (calm_operators id fn vs Hop) as Hcalm.
    rewrite Hvs in Hcalm. specialize (Hcalm (Harity Hop) st').
    apply isOperator_cases in Hop.
    repeat case_bool_decide; try exact Hcalm.
    destruct Hop as [?|[?|[?|[?|?]]]]; congruence.
  - rewrite isOperator_cases in Hop.
    repeat case_bool_decide; try (exfalso; apply Hop; tauto).
    apply calm_dispatch.
Qed.

Lemma calm_planObjEntries ens :
  Forall (fun en => calm (Plan (GetValue en))) ens -> calm (planObjEntries Plan ens).
Proof.
  intros H st why. rewrite planObjEntries_planEach.
  apply (calm_planEach (GetValue <$> ens)). by apply Forall_fmap.
Qed.

Lemma calm_planMapEntries ens :
  Forall (fun en => hasMapKey en = true /\ calm (Plan (GetMapKey en)) /\
                    calm (Plan (GetValue en))) ens ->
  calm (planMapEntries Plan ens).
Proof.
  induction 1 as [|en rest (Hkey & Hk & Hv) _ IH]; simpl; [apply calm_ret|].
  destruct en as [| |eid k v]; try discriminate Hkey. simpl in *.
  apply calm_bind; [exact Hk | intros kv].
  apply calm_bind; [exact Hv | intros vv].
  apply calm_bind; [exact IH | intros; apply calm_ret].
Qed.

Lemma calm_planCreateStruct id messageName entries :
  Forall (fun en => calm (Plan (GetValue en))) entries ->
  (String.length messageName = 0 ->
   Forall (fun en => hasMapKey en = true /\ calm (Plan (GetMapKey en))) entries) ->
  calm (planCreateStruct p Plan (Expr_StructExpr id messageName entries)).
Proof.
  intros Hvals Hkeys. unfold planCreateStruct. case_bool_decide as Hname.
  - unfold planCreateObj.
    destruct (resolveTypeName p _ messageName) as [typeName [|]]; simpl.
    + apply calm_bind; [by apply calm_planObjEntries | intros; apply calm_alloc].
    + apply calm_throw.
  - apply calm_bind; [|intros; apply calm_alloc].
    apply calm_planMapEntries.
    assert (String.length messageName = 0) as H0 by lia.
    specialize (Hkeys H0). clear -Hvals Hkeys.
    induction Hvals as [|en rest Hv _ IH]; [constructor|].
    apply Forall_cons in Hkeys as [[Hk1 Hk2] Hrest].
    constructor; [done | by apply IH].
Qed.

Lemma calm_planComprehension id iterVar iterRange accuVar accuInit cond step res :
  calm (Plan accuInit) -> calm (Plan iterRange) -> calm (Plan cond) ->
  calm (Plan step) -> calm (Plan res) ->
  calm (planComprehension Plan
          (Expr_ComprehensionExpr id iterVar iterRange accuVar accuInit cond step res)).
Proof.
  intros H1 H2 H3 H4 H5. unfold planComprehension.
  repeat (apply calm_bind; [done | intros ?]). apply calm_alloc.
Qed.
End Calm.

Lemma forallb_Forall_impl {A} (f : A -> bool) (P Q : A -> Prop) (l : list A) :
  Forall P l -> forallb f l = true ->
  (forall x, P x -> f x = true -> Q x) -> Forall Q l.
Proof.
  intros HP Hf HQ. induction HP as [|x rest Hx _ IH]; [constructor|].
  simpl in Hf. apply andb_true_iff in Hf as [Hfx Hrest].
  constructor; [by apply HQ | by apply IH].
Qed.

Lemma Plan_calm p :
  Forall calmDecorator (decorators p) ->
  forall e, wellFormed e = true -> calm (Plan p e).
Proof.
  intros Hdecs e.
  induction e as [ | id | id c | id name | id operand field testOnly IHop
                 | id target fn args IHt IHargs | id elements IHel
                 | id messageName entries IHen
                 | id iterVar iterRange accuVar accuInit cond step res IH1 IH2 IH3 IH4 IH5 ]
    using Expr_nested_ind; intros Hwf; cbn [Plan].
  - discriminate Hwf.
  - apply calm_throw.
  - apply calm_decorate, calm_planConst; done.
  - apply calm_decorate; [done|]. apply calm_cached_or_build.
  - simpl in Hwf. apply calm_decorate; [done|]. apply calm_planSelect; auto.
  - simpl in Hwf. apply andb_true_iff in Hwf as [Hwf Harity].
    apply andb_true_iff in Hwf as [Htarget Hargs].
    apply calm_decorate; [done|]. apply calm_planCall.
    + intros Hnil. apply IHt. by destruct target.
    + eapply forallb_Forall_impl; [exact IHargs | exact Hargs | auto].
    + intros Hop. rewrite bool_decide_eq_true_2 in Harity by done.
      by apply bool_decide_eq_true_1 in Harity.
  - simpl in Hwf. apply calm_decorate; [done|].
    unfold planCreateList. apply calm_bind; [|intros; apply calm_alloc].
    apply calm_planEach. eapply forallb_Forall_impl; [exact IHel | exact Hwf | auto].
  - simpl in Hwf. apply calm_decorate; [done|]. apply calm_planCreateStruct.
    + eapply forallb_Forall_impl; [exact IHen | exact Hwf |].
      intros en Hen Hb. destruct en as [eid v|eid k v|eid k v]; simpl in *;
        apply andb_true_iff in Hb as [_ Hv]; tauto.
    + intros Hname. eapply forallb_Forall_impl; [exact IHen | exact Hwf |].
      intros en Hen Hb.
      rewrite (bool_decide_eq_false_2 (String.length messageName ≠ 0)) in Hb by lia.
      destruct en as [eid v|eid k v|eid k v]; simpl in *; try discriminate Hb.
      apply andb_true_iff in Hb as [Hk _]. split; [done|]. tauto.
  - simpl in Hwf. repeat (apply andb_true_iff in Hwf as [Hwf ?]).
    apply calm_decorate; [done|]. apply calm_planComprehension; auto.
Qed.

(** ** Planners that plan alike *)

Lemma bind_cong {A B} (c1 c2 : M A) (k1 k2 : A -> M B) st :
  c1 st = c2 st -> (forall x st', k1 x st' = k2 x st') ->
  bind c1 k1 st = bind c2 k2 st.
Proof.
  intros Hc Hk. unfold bind. rewrite Hc.
  destruct (c2 st) as [[x|f] st1]; [apply Hk | reflexivity].
Qed.

Lemma planEach_ext P1 P2 es :
  Forall (fun e => forall st, P1 e st = P2 e st) es ->
  forall st, planEach P1 es st = planEach P2 es st.
Proof.
  induction 1 as [|e rest He _ IH]; intros st; [reflexivity|].
  simpl. apply bind_cong; [apply He | intros v st1].
  apply bind_cong; [apply IH | reflexivity].
Qed.

Lemma planObjEntries_ext P1 P2 ens :
  Forall (EntryAll (fun e => forall st, P1 e st = P2 e st)) ens ->
  forall st, planObjEntries P1 ens st = planObjEntries P2 ens st.
Proof.
  induction 1 as [|en rest He _ IH]; intros st; [reflexivity|].
  simpl. apply bind_cong; [destruct en; simpl in *; first [apply He | apply (proj2 He)] | intros v st1].
  apply bind_cong; [apply IH | reflexivity].
Qed.

Lemma planMapEntries_ext P1 P2 ens :
  Forall (EntryAll (fun e => forall st, P1 e st = P2 e st)) ens ->
  forall st, planMapEntries P1 ens st = planMapEntries P2 ens st.
Proof.
  induction 1 as [|en rest He _ IH]; intros st; [reflexivity|].
  simpl. apply bind_cong; [destruct en; simpl in *; first [reflexivity | apply (proj1 He)] | intros k st1].
  apply bind_cong; [destruct en; simpl in *; first [apply He | apply (proj2 He)] | intros v st2].
  apply bind_cong; [apply IH | reflexivity].
Qed.

Lemma Forall_flat_map_names {A} (names : A -> list string) (Q : A -> Prop)
    (agree : string -> Prop) (l : list A) :
  Forall (fun x => (forall n, n ∈ names x -> agree n) -> Q x) l ->
  (forall n, n ∈ flat_map names l -> agree n) ->
  Forall Q l.
Proof.
  induction 1 as [|x rest Hx _ IH]; intros Hagree; constructor.
  - apply Hx. intros n Hn. apply Hagree. simpl. apply elem_of_app. by left.
  - apply IH. intros n Hn. apply Hagree. simpl. apply elem_of_app. by right.
Qed.

(** Two planners with the same provider, adapter, package and reference
    map, whose decorator chains act alike and whose dispatchers agree on
    the names a tree may look up, plan the tree alike. *)
Section PlanAlike.
Variables p1 p2 : planner.
Hypothesis same_provider : provider p1 = provider p2.
Hypothesis same_adapter : adapter p1 = adapter p2.
Hypothesis same_pkg : pkg p1 = pkg p2.
Hypothesis same_refMap : refMap p1 = refMap p2.
Hypothesis same_decoration : forall i st,
  applyDecorators (decorators p1) i st = applyDecorators (decorators p2) i st.

Lemma idResolver_alike name : idResolver p1 name = idResolver p2 name.
Proof using same_provider same_pkg.
  unfold idResolver. by rewrite same_provider, same_pkg.
Qed.

Lemma decorate_alike step1 step2 st :
  step1 st = step2 st -> decorate p1 step1 st = decorate p2 step2 st.
Proof using same_decoration.
  intros H. unfold decorate. apply bind_cong; [exact H | apply same_decoration].
Qed.

Lemma overloadName_alike id : overloadName p1 id = overloadName p2 id.
Proof using same_refMap. unfold overloadName. by rewrite same_refMap. Qed.

Lemma planIdent_alike e st : planIdent p1 e st = planIdent p2 e st.
Proof using same_provider same_pkg.
  destruct e; try reflexivity. simpl.
  by rewrite same_provider, same_pkg, idResolver_alike.
Qed.

Lemma Plan_alike e :
  (forall n, n ∈ dispatchNames p1 e -> FindOverload (disp p1) n = FindOverload (disp p2) n) ->
  forall st, Plan p1 e st = Plan p2 e st.
Proof using All.
  induction e as [ | id | id c | id name | id operand field testOnly IHop
                 | id target fn args IHt IHargs | id elements IHel
                 | id messageName entries IHen
                 | id iterVar iterRange accuVar accuInit cond step res IH1 IH2 IH3 IH4 IH5 ]
    using Expr_nested_ind; intros Hagree st; cbn [Plan]; try reflexivity.
  - by apply decorate_alike.
  - apply decorate_alike, planIdent_alike.
  - apply decorate_alike. simpl in Hagree. specialize (IHop Hagree).
    unfold planSelect. destruct testOnly.
    + apply bind_cong; [apply IHop | reflexivity].
    + rewrite same_refMap. destruct (refMap p2 !! id) as [idRef|].
      * destruct (Value idRef); [by apply decorate_alike|].
        by rewrite same_provider.
      * apply bind_cong; [apply IHop | intros op st1].
        apply bind_cong; [reflexivity | intros q st2].
        by rewrite idResolver_alike.
  - apply decorate_alike. simpl in Hagree.
    assert (forall n, n ∈ dispatchNames p1 target -> FindOverload (disp p1) n = FindOverload (disp p2) n) as Ht.
    { intros n Hn. apply Hagree. rewrite !elem_of_app. tauto. }
    assert (Forall (fun e => forall st, Plan p1 e st = Plan p2 e st) args) as Ha.
    { eapply Forall_flat_map_names; [exact IHargs|].
      intros n Hn. apply Hagree. rewrite !elem_of_app. tauto. }
    specialize (IHt Ht). unfold planCall. apply bind_cong.
    { pose proof (planEach_ext _ _ _ Ha) as He.
      destruct target; simpl; try apply He;
        (apply bind_cong; [apply IHt | intros a st1];
         apply bind_cong; [apply He | reflexivity]). }
    intros vs st1. rewrite overloadName_alike.
    assert (~ isOperator fn ->
            findImpl p1 fn (overloadName p2 id) = findImpl p2 fn (overloadName p2 id)) as Hfind.
    { intros Hop.
      rewrite (bool_decide_eq_false_2 _ Hop), overloadName_alike in Hagree.
      unfold findImpl. destruct (bool_decide (overloadName p2 id ≠ "")).
      - rewrite (Hagree (overloadName p2 id)) by (rewrite !elem_of_app, !elem_of_cons; tauto).
        rewrite (Hagree fn) by (rewrite !elem_of_app, !elem_of_cons; tauto). reflexivity.
      - rewrite (Hagree fn) by (rewrite !elem_of_app, !elem_of_cons; tauto). reflexivity. }
    clear Hagree Ht. rewrite isOperator_cases in Hfind.
    repeat (case_bool_decide; [reflexivity|]).
    rewrite Hfind by tauto. reflexivity.
  - apply decorate_alike. simpl in Hagree. unfold planCreateList.
    rewrite same_adapter. apply bind_cong; [|reflexivity].
    apply planEach_ext. eapply Forall_flat_map_names; [exact IHel | exact Hagree].
  - apply decorate_alike. simpl in Hagree.
    assert (Forall (EntryAll (fun e => forall st, Plan p1 e st = Plan p2 e st)) entries) as He.
    { eapply (Forall_flat_map_names _ _ (fun n => FindOverload (disp p1) n = FindOverload (disp p2) n));
        [|exact Hagree].
      eapply Forall_impl; [exact IHen|]. intros en Hen Hn.
      destruct en as [eid v|eid k v|eid k v]; simpl in *.
      - by apply Hen.
      - by apply Hen.
      - destruct Hen as [Hk Hv]. split; [apply Hk | apply Hv];
          intros n Hin; apply Hn, elem_of_app; tauto. }
    unfold planCreateStruct, planCreateObj.
    rewrite same_adapter, same_provider, same_pkg.
    case_bool_decide.
    + destruct (resolveTypeName p2 _ messageName) as [typeName defined] eqn:E.
      assert (resolveTypeName p1 (packages.ResolveCandidateNames (pkg p2) messageName)
                messageName = (typeName, defined)) as ->.
      { rewrite <- E. generalize (packages.ResolveCandidateNames (pkg p2) messageName).
        intros l. induction l as [|c rest IH]; simpl; [done|].
        by rewrite same_provider, IH. }
      destruct (negb defined); [reflexivity|].
      apply bind_cong; [by apply planObjEntries_ext | reflexivity].
    + apply bind_cong; [by apply planMapEntries_ext | reflexivity].
  - apply decorate_alike. simpl in Hagree. unfold planComprehension.
    apply bind_cong; [apply IH1; intros n Hn; apply Hagree; rewrite !elem_of_app; tauto|intros ? ?].
    apply bind_cong; [apply IH2; intros n Hn; apply Hagree; rewrite !elem_of_app; tauto|intros ? ?].
    apply bind_cong; [apply IH3; intros n Hn; apply Hagree; rewrite !elem_of_app; tauto|intros ? ?].
    apply bind_cong; [apply IH4; intros n Hn; apply Hagree; rewrite !elem_of_app; tauto|intros ? ?].
    apply bind_cong; [apply IH5; intros n Hn; apply Hagree; rewrite !elem_of_app; tauto|intros ? ?].
    reflexivity.
Qed.
End PlanAlike.

Lemma applyDecorators_passThrough decs :
  Forall passThrough decs -> forall i st, applyDecorators decs i st = (Ok i, st).
Proof.
  induction 1 as [|dec rest Hdec _ IH]; intros i st; [reflexivity|].
  simpl. unfold bind, runDecorator. rewrite Hdec. simpl.
  rewrite IH. by destruct st.
Qed.

Lemma flat_map_Forall_ext {A B} (f g : A -> list B) (l : list A) :
  Forall (fun x => f x = g x) l -> flat_map f l = flat_map g l.
Proof. induction 1 as [|x rest Hx _ IH]; simpl; [done | by rewrite Hx, IH]. Qed.

Lemma dispatchNames_refMap p1 p2 :
  refMap p1 = refMap p2 -> forall e, dispatchNames p1 e = dispatchNames p2 e.
Proof.
  intros Href e.
  induction e as [ | id | id c | id name | id operand field testOnly IHop
                 | id target fn args IHt IHargs | id elements IHel
                 | id messageName entries IHen
                 | id iterVar iterRange accuVar accuInit cond step res IH1 IH2 IH3 IH4 IH5 ]
    using Expr_nested_ind; simpl; try done.
  - unfold overloadName. rewrite Href, IHt. do 2 f_equal.
    by apply flat_map_Forall_ext.
  - by apply flat_map_Forall_ext.
  - apply flat_map_Forall_ext. eapply Forall_impl; [exact IHen|].
    intros en Hen. destruct en; simpl in *; [done | done |].
    destruct Hen as [-> ->]. reflexivity.
  - by rewrite IH1, IH2, IH3, IH4, IH5.
Qed.

(** * The properties of the specification *)

(** ** Call planning *)

(** C1. A call named after logical AND, logical OR, the conditional,
    equality or inequality never reaches the dispatcher: planning it under
    any other dispatcher gives the same outcome, and once its arguments are
    planned (and are as many as the operator reads) the outcome is the
    dedicated node of that operator over those arguments. *)
Theorem operator_calls_are_specialised p Plan id target fnName callArgs st :
  isOperator fnName ->
  (forall d : Dispatcher,
      planCall (withDispatcher d p) Plan (Expr_CallExpr id target fnName callArgs) st
      = planCall p Plan (Expr_CallExpr id target fnName callArgs) st) /\
  (forall args st1,
      planCallArgs Plan target callArgs st = (Ok args, st1) ->
      operatorArity fnName <= length args ->
      exists node,
        dedicatedNode fnName (next st1) id args = Some node /\
        planCall p Plan (Expr_CallExpr id target fnName callArgs) st = (Ok node, bump st1)).
Proof.
  intros Hop. split.
  - intros d. destruct (planCallArgs Plan target callArgs st) as [[args|f] st1] eqn:E.
    + by rewrite !(planCall_operator _ _ _ _ _ _ _ _ _ Hop E).
    + unfold planCall. by rewrite !(bind_Fail _ _ _ _ _ E).
  - intros args st1 Hargs Harity.
    rewrite (planCall_operator _ _ _ _ _ _ _ _ _ Hop Hargs).
    apply isOperator_cases in Hop.
    destruct Hop as [-> | [-> | [-> | [-> | ->]]]];
      destruct args as [|x [|y [|z rest]]]; cbv in Harity; try lia;
      eexists; (split; [reflexivity | reflexivity]).
Qed.

Lemma operator_calls_are_specialised_witness :
  isOperator operators.LogicalAnd /\
  exists lhs rhs st',
    planCall (withDispatcher Fixtures.greedyDispatcher Fixtures.basePlanner)
      (Plan (withDispatcher Fixtures.greedyDispatcher Fixtures.basePlanner))
      (Expr_CallExpr 3 Expr_nil operators.LogicalAnd
         [Expr_IdentExpr 1 "a"; Expr_IdentExpr 2 "b"]) newState
    = (Ok (evalAnd 2 3 lhs rhs), st').
Proof.
  assert (isOperator operators.LogicalAnd) as Hop by (apply isOperator_cases; tauto).
  split; [exact Hop|].
  destruct (operator_calls_are_specialised
              (withDispatcher Fixtures.greedyDispatcher Fixtures.basePlanner)
              (Plan (withDispatcher Fixtures.greedyDispatcher Fixtures.basePlanner))
              3 Expr_nil operators.LogicalAnd
              [Expr_IdentExpr 1 "a"; Expr_IdentExpr 2 "b"] newState Hop) as [_ H].
  edestruct H as (node & Hn & Hp); [vm_compute; reflexivity | vm_compute; lia |].
  vm_compute in Hn. injection Hn as <-. eauto.
Defined.

(** C9. The specialised operator planners read their arguments at fixed
    positions: with the arguments planned, receiver included, a call named
    after an operator panics with an index out of range when it has fewer
    arguments than the operator reads (three for the conditional, two for
    the others), and builds its node otherwise. *)
Theorem operator_calls_need_their_arity p Plan id target fnName callArgs st args st1 :
  isOperator fnName ->
  planCallArgs Plan target callArgs st = (Ok args, st1) ->
  length args = argCount target callArgs /\
  (length args < operatorArity fnName ->
     planCall p Plan (Expr_CallExpr id target fnName callArgs) st
     = (Fail (Panic index_out_of_range), st1)) /\
  (operatorArity fnName <= length args ->
     exists node,
       planCall p Plan (Expr_CallExpr id target fnName callArgs) st = (Ok node, bump st1)).
Proof.
  intros Hop Hargs. split; [by eapply planCallArgs_length|].
  rewrite (planCall_operator _ _ _ _ _ _ _ _ _ Hop Hargs).
  apply isOperator_cases in Hop.
  destruct Hop as [-> | [-> | [-> | [-> | ->]]]];
    destruct args as [|x [|y [|z rest]]];
    (split; intros Hlen; cbv in Hlen; try lia; first [reflexivity | eexists; reflexivity]).
Qed.

Lemma operator_calls_need_their_arity_witness :
  isOperator operators.Conditional /\
  planCall Fixtures.basePlanner (Plan Fixtures.basePlanner)
    (Expr_CallExpr 3 Expr_nil operators.Conditional
       [Expr_IdentExpr 1 "c"; Expr_IdentExpr 2 "t"]) newState
  = (Fail (Panic index_out_of_range),
     (planCallArgs (Plan Fixtures.basePlanner) Expr_nil
        [Expr_IdentExpr 1 "c"; Expr_IdentExpr 2 "t"] newState).2).
Proof.
  assert (isOperator operators.Conditional) as Hop by (apply isOperator_cases; tauto).
  split; [exact Hop|].
  destruct (planCallArgs (Plan Fixtures.basePlanner) Expr_nil
              [Expr_IdentExpr 1 "c"; Expr_IdentExpr 2 "t"] newState) as [r st1] eqn:E.
  assert (exists args, r = Ok args /\ length args = 2) as (args & -> & Hlen).
  { vm_compute in E. injection E as <- _. eexists; split; reflexivity. }
  destruct (operator_calls_need_their_arity Fixtures.basePlanner
              (Plan Fixtures.basePlanner) 3 Expr_nil operators.Conditional
              [Expr_IdentExpr 1 "c"; Expr_IdentExpr 2 "t"] newState args st1 Hop E)
    as (_ & Hshort & _).
  apply Hshort. rewrite Hlen. vm_compute. lia.
Defined.

(** C2. Generic dispatch, for a call that is not one of the operators and
    whose arguments are planned. With no argument, a missing entry or an
    entry without a function form is an [UnknownOverload] error. With one,
    two or more arguments, an entry that is found but lacks the form of
    that arity is an [UnknownOverload] error, while no entry at all is not
    an error: the node is built with a nil implementation. *)
Theorem generic_dispatch_by_arity p Plan id target fnName callArgs st args st1 :
  ~ isOperator fnName ->
  planCallArgs Plan target callArgs st = (Ok args, st1) ->
  let oName := overloadName p id in
  let impl := findImpl p fnName oName in
  let call := planCall p Plan (Expr_CallExpr id target fnName callArgs) st in
  (args = [] ->
   impl = None \/ (exists o, impl = Some o /\ functions.Function o = None) ->
   call = (Fail (Error (UnknownOverload (fnName +:+ "()"))), st1)) /\
  (forall o x, args = [x] -> impl = Some o -> functions.Unary o = None ->
   call = (Fail (Error (UnknownOverload (fnName +:+ "(arg)"))), st1)) /\
  (forall o x y, args = [x; y] -> impl = Some o -> functions.Binary o = None ->
   call = (Fail (Error (UnknownOverload (fnName +:+ "(lhs, rhs)"))), st1)) /\
  (forall o, 3 <= length args -> impl = Some o -> functions.Function o = None ->
   call = (Fail (Error (UnknownOverload (fnName +:+ "(...)"))), st1)) /\
  (impl = None ->
   (forall x, args = [x] ->
      call = (Ok (evalUnary (next st1) id fnName oName x 0 None), bump st1)) /\
   (forall x y, args = [x; y] ->
      call = (Ok (evalBinary (next st1) id fnName oName x y 0 None), bump st1)) /\
   (3 <= length args ->
      call = (Ok (evalVarArgs (next st1) id fnName oName args 0 None), bump st1))).
Proof.
  intros Hop Hargs oName impl call.
  assert (call = match length args with
                 | 0 => planCallZero id fnName oName impl
                 | 1 => planCallUnary id fnName oName impl args
                 | 2 => planCallBinary id fnName oName impl args
                 | _ => planCallVarArgs id fnName oName impl args
                 end st1) as -> by exact (planCall_generic _ _ _ _ _ _ _ _ _ Hop Hargs).
  clearbody impl. refine (conj _ (conj _ (conj _ (conj _ _)))).
  - intros -> [-> | (o & -> & Hfn)]; simpl; [done|]. by rewrite Hfn.
  - intros o x -> -> Hfn. simpl. by rewrite Hfn.
  - intros o x y -> -> Hfn. simpl. by rewrite Hfn.
  - intros o Hlen -> Hfn. destruct args as [|x [|y [|z rest]]]; simpl in Hlen; try lia.
    simpl. by rewrite Hfn.
  - intros ->. refine (conj _ (conj _ _)).
    + by intros x ->.
    + by intros x y ->.
    + intros Hlen. by destruct args as [|x [|y [|z rest]]]; simpl in Hlen; try lia.
Qed.

Lemma generic_dispatch_by_arity_witness :
  ~ isOperator "f" /\
  planCall Fixtures.basePlanner (Plan Fixtures.basePlanner)
    (Expr_CallExpr 1 Expr_nil "f" []) newState
  = (Fail (Error (UnknownOverload "f()")), newState) /\
  exists lhs rhs st',
    planCall Fixtures.basePlanner (Plan Fixtures.basePlanner)
      (Expr_CallExpr 3 Expr_nil "f" [Expr_IdentExpr 1 "a"; Expr_IdentExpr 2 "b"]) newState
    = (Ok (evalBinary 2 3 "f" "" lhs rhs 0 None), st').
Proof.
  assert (~ isOperator "f") as Hop.
  { rewrite isOperator_cases. intros [H|[H|[H|[H|H]]]]; discriminate H. }
  split; [exact Hop|]. split.
  - destruct (generic_dispatch_by_arity Fixtures.basePlanner (Plan Fixtures.basePlanner)
                1 Expr_nil "f" [] newState [] newState Hop eq_refl) as (Hzero & _).
    apply Hzero; [reflexivity | left; reflexivity].
  - destruct (planCallArgs (Plan Fixtures.basePlanner) Expr_nil
                [Expr_IdentExpr 1 "a"; Expr_IdentExpr 2 "b"] newState) as [r st1] eqn:E.
    assert (exists a b, r = Ok [a; b] /\ next st1 = 2) as (a & b & -> & Hnext).
    { vm_compute in E. injection E as <- <-. eexists _, _; split; reflexivity. }
    destruct (generic_dispatch_by_arity Fixtures.basePlanner (Plan Fixtures.basePlanner)
                3 Expr_nil "f" [Expr_IdentExpr 1 "a"; Expr_IdentExpr 2 "b"]
                newState [a; b] st1 Hop E) as (_ & _ & _ & _ & Hnone).
    destruct (Hnone eq_refl) as (_ & Hbin & _).
    rewrite (Hbin a b eq_refl), Hnext. eexists _, _, _. reflexivity.
Defined.

(** ** Aggregates *)

(** C6. Object construction, for a struct with a type name. When the
    provider knows none of the namespace candidates of the name, planning
    fails with [UnknownType]. Otherwise the candidates are taken in the
    order the namespace context lists them and the first one the provider
    knows is the type name of the node that is built, once the field values
    are planned; a field value that fails to plan fails the construction. *)
Theorem object_type_is_first_known_candidate p Plan id messageName entries st :
  String.length messageName <> 0 ->
  let candidates := packages.ResolveCandidateNames (pkg p) messageName in
  let plan := planCreateStruct p Plan (Expr_StructExpr id messageName entries) st in
  ((forall c, c ∈ candidates -> ref.FindType (provider p) c = false) ->
   plan = (Fail (Error (UnknownType messageName)), st)) /\
  (forall before q after,
     candidates = before ++ q :: after ->
     (forall c, c ∈ before -> ref.FindType (provider p) c = false) ->
     ref.FindType (provider p) q = true ->
     (forall vals st1,
        planObjEntries Plan entries st = (Ok vals, st1) ->
        plan = (Ok (evalObj (next st1) id q (GetFieldKey <$> entries) vals (provider p)),
                bump st1)) /\
     (forall f st1,
        planObjEntries Plan entries st = (Fail f, st1) -> plan = (Fail f, st1))).
Proof.
  intros Hname candidates plan. subst plan. unfold planCreateStruct.
  rewrite bool_decide_eq_true_2 by done. unfold planCreateObj. fold candidates.
  split.
  - intros Hnone. by rewrite (resolveTypeName_none _ _ _ Hnone).
  - intros before q after -> Hnone Hq.
    rewrite (resolveTypeName_first _ _ _ _ _ Hnone Hq). simpl. split.
    + intros vals st1 Hvals. by rewrite (bind_Ok _ _ _ _ _ Hvals).
    + intros f st1 Hvals. by rewrite (bind_Fail _ _ _ _ _ Hvals).
Qed.

Lemma object_type_is_first_known_candidate_witness :
  String.length "T" <> 0 /\
  planCreateStruct
    Fixtures.objectPlanner (Plan Fixtures.objectPlanner)
    (Expr_StructExpr 2 "T" [Entry_FieldKey 3 "f" (Expr_ConstExpr 1 Constant_NullValue)])
    newState
  = (Ok (evalObj 1 2 "a.T" ["f"] [evalConst 0 1 types.Null] Fixtures.someTypes),
     {| identMap := ∅; next := 2 |}).
Proof.
  assert (String.length "T" <> 0) as Hname by (simpl; lia).
  split; [exact Hname|].
  destruct (object_type_is_first_known_candidate
              Fixtures.objectPlanner (Plan Fixtures.objectPlanner) 2 "T"
              [Entry_FieldKey 3 "f" (Expr_ConstExpr 1 Constant_NullValue)]
              newState Hname) as [_ Hfirst].
  destruct (Hfirst ["a.b.T"] "a.T" ["T"] eq_refl) as [Hok _].
  - intros c Hc. apply list_elem_of_singleton in Hc as ->. reflexivity.
  - reflexivity.
  - exact (Hok [evalConst 0 1 types.Null] {| identMap := ∅; next := 1 |} eq_refl).
Defined.

(** ** Comprehensions *)

(** C7. A comprehension plans its five sub-expressions in the order
    accumulator initializer, iteration range, loop condition, loop step,
    result, each from the state the one before left. When the ones before
    some sub-expression are planned and that one fails, the comprehension
    fails with that very failure in the state that failing plan ended in,
    whatever the later sub-expressions are: [Plan], any function at all
    here, is not applied to them. When all five are planned the fold node
    is built over them. *)
Theorem comprehension_stops_at_first_failure
    Plan id iterVar iterRange accuVar accuInit cond step res st :
  let plan := planComprehension Plan
    (Expr_ComprehensionExpr id iterVar iterRange accuVar accuInit cond step res) st in
  (forall planned failing later vs st1 f st2,
     foldOrder accuInit iterRange cond step res = planned ++ failing :: later ->
     planEach Plan planned st = (Ok vs, st1) ->
     Plan failing st1 = (Fail f, st2) ->
     plan = (Fail f, st2)) /\
  (forall accu rng c s r st1,
     planEach Plan (foldOrder accuInit iterRange cond step res) st
       = (Ok [accu; rng; c; s; r], st1) ->
     plan = (Ok (evalFold (next st1) id accuVar accu iterVar rng c s r), bump st1)).
Proof.
  intros plan. subst plan. rewrite planComprehension_planEach. split.
  - intros planned failing later vs st1 f st2 -> Hplanned Hfail.
    apply bind_Fail. by eapply planEach_first_failure.
  - intros accu rng c s r st1 Hall. by rewrite (bind_Ok _ _ _ _ _ Hall).
Qed.

Lemma comprehension_stops_at_first_failure_witness :
  exists st2,
    planComprehension (Plan Fixtures.basePlanner)
      (Expr_ComprehensionExpr 5 "x" (Expr_IdentExpr 2 "xs") "acc"
         (Expr_ConstExpr 1 (Constant_BoolValue true))
         (Expr_unset 3) Expr_nil Expr_nil) newState
    = (Fail (Error (UnsupportedNode (Expr_unset 3))), st2).
Proof.
  destruct (comprehension_stops_at_first_failure (Plan Fixtures.basePlanner)
              5 "x" (Expr_IdentExpr 2 "xs") "acc"
              (Expr_ConstExpr 1 (Constant_BoolValue true))
              (Expr_unset 3) Expr_nil Expr_nil newState) as [Hfail _].
  destruct (planEach (Plan Fixtures.basePlanner)
              [Expr_ConstExpr 1 (Constant_BoolValue true); Expr_IdentExpr 2 "xs"] newState)
    as [r st1] eqn:E.
  assert (exists vs, r = Ok vs) as [vs ->].
  { vm_compute in E. injection E as <- _. eexists; reflexivity. }
  exists st1.
  exact (Hfail [Expr_ConstExpr 1 (Constant_BoolValue true); Expr_IdentExpr 2 "xs"]
           (Expr_unset 3) [Expr_nil; Expr_nil] vs st1 _ st1 eq_refl E eq_refl).
Defined.

(** ** The identifier cache *)

(** C3. Within one planner, two expressions that name the same identifier,
    each a bare identifier or a statically resolved select, get the same
    node instance: the first is planned to a node that the cache then
    holds, and after any further planning the second is planned to that
    identical node, with no change of state. With an empty decorator chain
    this is what [Plan] itself returns for the two. *)
Theorem same_name_same_instance p first second name between st :
  namesIdent p first name ->
  namesIdent p second name ->
  exists i st1,
    planNamed p first st = (Ok i, st1) /\
    identMap st1 !! name = Some i /\
    planNamed p second (planAll p between st1) = (Ok i, planAll p between st1) /\
    (decorators p = [] ->
     Plan p first st = (Ok i, st1) /\
     Plan p second (planAll p between st1) = (Ok i, planAll p between st1)).
Proof.
  intros Hfirst Hsecond.
  destruct (planNamed_total p first name st Hfirst) as (i & st1 & Hplan & Hcache).
  exists i, st1. split; [done|]. split; [done|].
  assert (planNamed p second (planAll p between st1) = (Ok i, planAll p between st1)) as H2.
  { eapply planNamed_cached; [done|]. by apply planAll_keeps. }
  split; [done|]. intros Hnil.
  rewrite (Plan_planNamed _ _ _ Hfirst), (Plan_planNamed _ _ _ Hsecond).
  by rewrite !decorate_nil.
Qed.

Lemma same_name_same_instance_witness :
  namesIdent Fixtures.namespacePlanner (Expr_IdentExpr 1 "a.b.v") "a.b.v" /\
  namesIdent Fixtures.namespacePlanner
    (Expr_SelectExpr 2 (Expr_SelectExpr 3 (Expr_IdentExpr 4 "a") "b" false) "v" false)
    "a.b.v" /\
  exists i st1,
    Plan Fixtures.namespacePlanner (Expr_IdentExpr 1 "a.b.v") newState = (Ok i, st1) /\
    Plan Fixtures.namespacePlanner
      (Expr_SelectExpr 2 (Expr_SelectExpr 3 (Expr_IdentExpr 4 "a") "b" false) "v" false)
      (planAll Fixtures.namespacePlanner [Expr_IdentExpr 5 "w"] st1)
    = (Ok i, planAll Fixtures.namespacePlanner [Expr_IdentExpr 5 "w"] st1).
Proof.
  assert (namesIdent Fixtures.namespacePlanner (Expr_IdentExpr 1 "a.b.v") "a.b.v") as H1
    by constructor.
  assert (namesIdent Fixtures.namespacePlanner
            (Expr_SelectExpr 2 (Expr_SelectExpr 3 (Expr_IdentExpr 4 "a") "b" false) "v" false)
            "a.b.v") as H2.
  { exact (names_static Fixtures.namespacePlanner 2 _ "v"
             {| Name := "a.b.v"; OverloadId := []; Value := None |} eq_refl eq_refl). }
  split; [exact H1|]. split; [exact H2|].
  destruct (same_name_same_instance Fixtures.namespacePlanner _ _ "a.b.v"
              [Expr_IdentExpr 5 "w"] newState H1 H2) as (i & st1 & _ & _ & _ & Hplan).
  exists i, st1. exact (Hplan eq_refl).
Defined.

(** C10. The cache is keyed by the name alone and serves both the bare
    identifier and the statically resolved select. For a name not yet
    cached, under a non-empty package: when the bare identifier is planned
    first, the shared node carries the namespace resolver and a later
    static select of that name returns this very node; when the static
    select is planned first, the shared node carries no resolver and a
    later bare identifier returns this very node, resolver still absent.
    The node ids of the two expressions play no part. *)
Theorem first_construction_decides_resolver p id1 id2 operand field idRef between st :
  refMap p !! id2 = Some idRef ->
  Value idRef = None ->
  identMap st !! Name idRef = None ->
  packages.Package (pkg p) <> "" ->
  let name := Name idRef in
  let bare := Expr_IdentExpr id1 name in
  let static := Expr_SelectExpr id2 operand field false in
  (exists st1,
     let i := evalIdent (next st) id1 name (provider p) (Some (idResolver p name)) in
     planIdent p bare st = (Ok i, st1) /\
     planSelect p (Plan p) static (planAll p between st1) = (Ok i, planAll p between st1)) /\
  (exists st1,
     let i := evalIdent (next st) id2 name (provider p) None in
     planSelect p (Plan p) static st = (Ok i, st1) /\
     planIdent p bare (planAll p between st1) = (Ok i, planAll p between st1)).
Proof.
  intros Href Hval Hnone Hpkg name bare static.
  assert (namesIdent p bare name) as Hbare by constructor.
  assert (namesIdent p static name) as Hstatic by by constructor.
  split.
  - eexists. split.
    + subst bare. rewrite planIdent_fresh by done.
      by rewrite bool_decide_eq_true_2.
    + apply (planNamed_cached p static name); [done|].
      apply planAll_keeps. simpl. apply lookup_insert_eq.
  - eexists. split.
    + subst static. by rewrite (planSelect_static_fresh _ _ _ _ _ _ _ Href Hval Hnone).
    + apply (planNamed_cached p bare name); [done|].
      apply planAll_keeps. simpl. apply lookup_insert_eq.
Qed.

Lemma first_construction_decides_resolver_witness :
  refMap Fixtures.namespacePlanner !! 2%Z
    = Some {| Name := "a.b.v"; OverloadId := []; Value := None |} /\
  identMap newState !! "a.b.v" = None /\
  packages.Package (pkg Fixtures.namespacePlanner) <> "" /\
  (exists st1,
     planIdent Fixtures.namespacePlanner (Expr_IdentExpr 1 "a.b.v") newState
     = (Ok (evalIdent 0 1 "a.b.v" Fixtures.noTypes
              (Some (idResolver Fixtures.namespacePlanner "a.b.v"))), st1) /\
     planSelect Fixtures.namespacePlanner (Plan Fixtures.namespacePlanner)
       (Expr_SelectExpr 2 (Expr_IdentExpr 3 "v") "v" false) st1
     = (Ok (evalIdent 0 1 "a.b.v" Fixtures.noTypes
              (Some (idResolver Fixtures.namespacePlanner "a.b.v"))), st1)) /\
  (exists st1,
     planSelect Fixtures.namespacePlanner (Plan Fixtures.namespacePlanner)
       (Expr_SelectExpr 2 (Expr_IdentExpr 3 "v") "v" false) newState
     = (Ok (evalIdent 0 2 "a.b.v" Fixtures.noTypes None), st1) /\
     planIdent Fixtures.namespacePlanner (Expr_IdentExpr 1 "a.b.v") st1
     = (Ok (evalIdent 0 2 "a.b.v" Fixtures.noTypes None), st1)).
Proof.
  assert (packages.Package (pkg Fixtures.namespacePlanner) <> "") as Hpkg by discriminate.
  split; [reflexivity|]. split; [reflexivity|]. split; [exact Hpkg|].
  exact (first_construction_decides_resolver Fixtures.namespacePlanner 1 2
           (Expr_IdentExpr 3 "v") "v"
           {| Name := "a.b.v"; OverloadId := []; Value := None |} [] newState
           eq_refl eq_refl eq_refl Hpkg).
Defined.

(** ** Decoration *)

(** C4, as the spec states it, fails: with a decorator that wraps its
    argument, the second reference to [x] is a new wrapper, at a new
    address, around the cached node; the chain ran again. *)
Lemma later_reference_is_decorated_again :
  exists cached st1 st2,
    Plan Fixtures.watchPlanner (Expr_IdentExpr 1 "x") newState
      = (Ok (evalExtern 1 "watch" [cached]), st1) /\
    Plan Fixtures.watchPlanner (Expr_IdentExpr 1 "x") st1
      = (Ok (evalExtern 2 "watch" [cached]), st2) /\
    identMap st1 !! "x" = Some cached /\
    evalExtern 2 "watch" [cached] <> evalExtern 1 "watch" [cached].
Proof.
  eexists _, _, _. split; [vm_compute; reflexivity|].
  split; [vm_compute; reflexivity|]. split; [vm_compute; reflexivity|].
  intros [= ].
Qed.

(** C4, amended. The cache holds the identifier node as it was built,
    before decoration. Every reference to the name, as a bare identifier
    or as a statically resolved select, the first and each later one,
    passes that cached node through the whole decorator chain: what [Plan]
    returns is the chain applied to the cached node. A later reference
    returns the cached instance itself when every decorator of the chain
    hands its argument back, the empty chain included. *)
Theorem every_reference_is_decorated p e name st :
  namesIdent p e name ->
  (forall i, identMap st !! name = Some i ->
     planNamed p e st = (Ok i, st) /\
     Plan p e st = applyDecorators (decorators p) i st) /\
  (identMap st !! name = None ->
     exists i st1,
       planNamed p e st = (Ok i, st1) /\
       identMap st1 = <[name := i]> (identMap st) /\
       Plan p e st = applyDecorators (decorators p) i st1) /\
  (forall i, Forall passThrough (decorators p) -> identMap st !! name = Some i ->
     Plan p e st = (Ok i, st)).
Proof.
  intros Hnames.
  assert (forall i, identMap st !! name = Some i ->
            planNamed p e st = (Ok i, st) /\
            Plan p e st = applyDecorators (decorators p) i st) as Hc.
  { intros i Hi. pose proof (planNamed_cached p e name st i Hnames Hi) as Hstep.
    split; [exact Hstep|].
    rewrite (Plan_planNamed _ _ _ Hnames). by apply decorate_Ok. }
  split; [exact Hc|]. split.
  - intros Hnone.
    assert (exists i st1, planNamed p e st = (Ok i, st1) /\
                          identMap st1 = <[name := i]> (identMap st)) as (i & st1 & Hstep & Hmap).
    { destruct Hnames as [id name | id operand field idRef Href Hval].
      - eexists _, _. split; [by apply planIdent_fresh | reflexivity].
      - eexists _, _. split; [by apply planSelect_static_fresh | reflexivity]. }
    exists i, st1. split; [exact Hstep|]. split; [exact Hmap|].
    rewrite (Plan_planNamed _ _ _ Hnames). by apply decorate_Ok.
  - intros i Hpass Hi. destruct (Hc i Hi) as [_ ->].
    by apply applyDecorators_passThrough.
Qed.

Lemma every_reference_is_decorated_witness :
  namesIdent (withDecorators [Fixtures.watch] Fixtures.namespacePlanner)
    (Expr_SelectExpr 2 (Expr_IdentExpr 3 "v") "v" false) "a.b.v" /\
  exists i st1,
    identMap st1 !! "a.b.v" = Some i /\
    Plan (withDecorators [Fixtures.watch] Fixtures.namespacePlanner)
      (Expr_SelectExpr 2 (Expr_IdentExpr 3 "v") "v" false) st1
    = (Ok (evalExtern 2 "watch" [i]),
       {| identMap := identMap st1; next := 3 |}).
Proof.
  assert (namesIdent (withDecorators [Fixtures.watch] Fixtures.namespacePlanner)
            (Expr_SelectExpr 2 (Expr_IdentExpr 3 "v") "v" false) "a.b.v") as Hn.
  { exact (names_static (withDecorators [Fixtures.watch] Fixtures.namespacePlanner) 2 _ "v"
             {| Name := "a.b.v"; OverloadId := []; Value := None |} eq_refl eq_refl). }
  split; [exact Hn|].
  exists (evalIdent 0 1 "a.b.v" Fixtures.noTypes
            (Some (idResolver (withDecorators [Fixtures.watch] Fixtures.namespacePlanner) "a.b.v"))),
         (Plan (withDecorators [Fixtures.watch] Fixtures.namespacePlanner)
            (Expr_IdentExpr 1 "a.b.v") newState).2.
  assert (identMap (Plan (withDecorators [Fixtures.watch] Fixtures.namespacePlanner)
                      (Expr_IdentExpr 1 "a.b.v") newState).2 !! "a.b.v"
          = Some (evalIdent 0 1 "a.b.v" Fixtures.noTypes
                    (Some (idResolver (withDecorators [Fixtures.watch] Fixtures.namespacePlanner)
                             "a.b.v")))) as Hi by reflexivity.
  split; [exact Hi|].
  destruct (every_reference_is_decorated
              (withDecorators [Fixtures.watch] Fixtures.namespacePlanner) _ "a.b.v"
              (Plan (withDecorators [Fixtures.watch] Fixtures.namespacePlanner)
                 (Expr_IdentExpr 1 "a.b.v") newState).2 Hn) as [Hc _].
  destruct (Hc _ Hi) as [_ ->]. reflexivity.
Defined.

(** ** Constants behind a reference *)

(** C5, as the spec states it, fails: under a wrapping decorator the select
    with a constant reference is planned to the constant wrapped twice,
    the constant literal to the constant wrapped once. *)
Lemma select_constant_is_decorated_twice :
  refMap Fixtures.watchPlanner !! 2%Z
    = Some {| Name := "E.X"; OverloadId := []; Value := Some (Constant_Int64Value 7) |} /\
  exists viaSelect direct st1 st2,
    Plan Fixtures.watchPlanner
      (Expr_SelectExpr 2 (Expr_IdentExpr 1 "E") "X" false) newState = (Ok viaSelect, st1) /\
    Plan Fixtures.watchPlanner
      (Expr_ConstExpr 2 (Constant_Int64Value 7)) newState = (Ok direct, st2) /\
    ~ sameStructure viaSelect direct.
Proof.
  split; [reflexivity|].
  eexists _, _, _, _. split; [vm_compute; reflexivity|].
  split; [vm_compute; reflexivity|].
  unfold sameStructure. simpl. intros [= ].
Qed.

(** C5, amended. For a select, not test-only, whose reference carries a
    constant, the [planSelect] step returns exactly what planning that
    constant literal returns, node and state, under the same decorator
    chain; [Plan] on the select is that outcome passed through the chain
    once more, so the two plans are identical when the chain is empty. *)
Theorem select_constant_replans_the_constant p Plan' id operand field idRef c st :
  refMap p !! id = Some idRef ->
  Value idRef = Some c ->
  planSelect p Plan' (Expr_SelectExpr id operand field false) st
    = Plan p (Expr_ConstExpr id c) st /\
  Plan p (Expr_SelectExpr id operand field false) st
    = decorate p (Plan p (Expr_ConstExpr id c)) st /\
  (decorators p = [] ->
   Plan p (Expr_SelectExpr id operand field false) st = Plan p (Expr_ConstExpr id c) st).
Proof.
  intros Href Hval.
  assert (forall Plan'', planSelect p Plan'' (Expr_SelectExpr id operand field false) st
                         = Plan p (Expr_ConstExpr id c) st) as Hsel.
  { intros Plan''. simpl. by rewrite Href, Hval. }
  assert (Plan p (Expr_SelectExpr id operand field false) st
          = decorate p (Plan p (Expr_ConstExpr id c)) st) as Hplan.
  { cbn [Plan]. unfold decorate at 1 3, bind. by rewrite Hsel. }
  split; [apply Hsel|]. split; [exact Hplan|].
  intros Hnil. rewrite Hplan. by apply decorate_nil.
Qed.

Lemma select_constant_replans_the_constant_witness :
  refMap Fixtures.enumPlanner !! 2%Z
    = Some {| Name := "E.X"; OverloadId := []; Value := Some (Constant_Int64Value 7) |} /\
  Plan Fixtures.enumPlanner (Expr_SelectExpr 2 (Expr_IdentExpr 1 "E") "X" false) newState
  = Plan Fixtures.enumPlanner (Expr_ConstExpr 2 (Constant_Int64Value 7)) newState.
Proof.
  split; [reflexivity|].
  destruct (select_constant_replans_the_constant Fixtures.enumPlanner
              (Plan Fixtures.enumPlanner) 2 (Expr_IdentExpr 1 "E") "X"
              {| Name := "E.X"; OverloadId := []; Value := Some (Constant_Int64Value 7) |}
              (Constant_Int64Value 7) newState eq_refl eq_refl) as (_ & _ & Hnil).
  exact (Hnil eq_refl).
Defined.

(** C8, as the spec states it, fails: a select marked test-only whose
    reference carries a constant is planned as a presence test over its
    planned operand, an identifier looked up at run time, and not as the
    constant. *)
Lemma test_only_select_ignores_constant_reference :
  refMap Fixtures.enumPlanner !! 2%Z
    = Some {| Name := "E.X"; OverloadId := []; Value := Some (Constant_Int64Value 7) |} /\
  (Plan Fixtures.enumPlanner (Expr_SelectExpr 2 (Expr_IdentExpr 1 "E") "X" true) newState).1
    = Ok (evalTestOnly 1 2 (types.String "X") (evalIdent 0 1 "E" Fixtures.noTypes None)) /\
  (Plan Fixtures.enumPlanner (Expr_ConstExpr 2 (Constant_Int64Value 7)) newState).1
    = Ok (evalConst 0 2 (types.Int 7)).
Proof.
  split; [reflexivity|]. split; vm_compute; reflexivity.
Qed.

(** C8, amended. For a select that is not test-only and whose reference
    carries a constant of a known kind, [planSelect] builds the constant
    node for that value and hands it to the decorator chain: the operand is
    not planned and the identifier cache is not touched. A select marked
    test-only and a bare identifier are planned without a look at the
    reference map. *)
Theorem constant_reference_select_is_a_constant p Plan' id operand field idRef c val st :
  refMap p !! id = Some idRef ->
  Value idRef = Some c ->
  constValue c st = (Ok val, st) ->
  planSelect p Plan' (Expr_SelectExpr id operand field false) st
    = applyDecorators (decorators p) (evalConst (next st) id val) (bump st) /\
  (forall m,
     planSelect (withRefMap m p) Plan' (Expr_SelectExpr id operand field true) st
     = (op <~ Plan' operand ;; alloc (fun a => evalTestOnly a id (types.String field) op)) st) /\
  (forall m name,
     planIdent (withRefMap m p) (Expr_IdentExpr id name) st
     = planIdent p (Expr_IdentExpr id name) st).
Proof.
  intros Href Hval Hconst. split; [|split; [done|done]].
  simpl. rewrite Href, Hval. unfold Plan_const. apply decorate_Ok.
  unfold planConst. by rewrite (bind_Ok _ _ _ _ _ Hconst).
Qed.

Lemma constant_reference_select_is_a_constant_witness :
  refMap Fixtures.enumPlanner !! 2%Z
    = Some {| Name := "E.X"; OverloadId := []; Value := Some (Constant_Int64Value 7) |} /\
  constValue (Constant_Int64Value 7) newState = (Ok (types.Int 7), newState) /\
  planSelect Fixtures.enumPlanner (fun _ => Plan_nil)
    (Expr_SelectExpr 2 (Expr_IdentExpr 1 "E") "X" false) newState
  = (Ok (evalConst 0 2 (types.Int 7)), bump newState).
Proof.
  split; [reflexivity|]. split; [reflexivity|].
  destruct (constant_reference_select_is_a_constant Fixtures.enumPlanner
              (fun _ => Plan_nil) 2 (Expr_IdentExpr 1 "E") "X"
              {| Name := "E.X"; OverloadId := []; Value := Some (Constant_Int64Value 7) |}
              (Constant_Int64Value 7) (types.Int 7) newState eq_refl eq_refl eq_refl)
    as (Hconst & _).
  exact Hconst.
Defined.

(** ** The scenario of the spec

    [x.y == 1 && has(x.z)], planned with a dispatcher that registers an
    entry under every name: the operators get their dedicated nodes, the
    two references to [x] share one node. *)
Example scenario_plan_shape :
  (Plan (withDispatcher Fixtures.greedyDispatcher Fixtures.basePlanner)
     (Expr_CallExpr 6 Expr_nil operators.LogicalAnd
        [Expr_CallExpr 3 Expr_nil operators.Equals
           [Expr_SelectExpr 2 (Expr_IdentExpr 1 "x") "y" false;
            Expr_ConstExpr 4 (Constant_Int64Value 1)];
         Expr_SelectExpr 5 (Expr_IdentExpr 1 "x") "z" true]) newState).1
  = Ok (evalAnd 5 6
          (evalEq 3 3
             (evalSelect 1 2 (types.String "y")
                (evalIdent 0 1 "x" Fixtures.noTypes None)
                (Some (idResolver Fixtures.basePlanner "x.y")))
             (evalConst 2 4 (types.Int 1)))
          (evalTestOnly 4 5 (types.String "z")
             (evalIdent 0 1 "x" Fixtures.noTypes None))).
Proof. reflexivity. Qed.

(** * Further properties of the planner *)

(** ** Decoration *)

(** X1. A planning step that fails is handed back as it is, no decorator
    runs. When the step gives a node, the decorators before some decorator
    accept it in turn and that decorator fails, [decorate] returns that
    failure, whatever decorators come after it in the chain. *)
Theorem decorate_stops_at_first_failure p step st :
  (forall f st1, step st = (Fail f, st1) -> decorate p step st = (Fail f, st1)) /\
  (forall before dec after i st1 i' st2 f n,
     decorators p = before ++ dec :: after ->
     step st = (Ok i, st1) ->
     applyDecorators before i st1 = (Ok i', st2) ->
     dec i' (next st2) = (Fail f, n) ->
     decorate p step st = (Fail f, {| identMap := identMap st2; next := n |})).
Proof.
  split.
  - intros f st1 Hstep. by apply bind_Fail.
  - intros before dec after i st1 i' st2 f n Hchain Hstep Hbefore Hdec.
    rewrite (decorate_Ok _ _ _ _ _ Hstep), Hchain, applyDecorators_app.
    rewrite (bind_Ok _ _ _ _ _ Hbefore). simpl.
    apply bind_Fail. by apply runDecorator_eq.
Qed.

Lemma decorate_stops_at_first_failure_witness :
  exists st',
    Plan (withDecorators [Fixtures.watch; refuse; Fixtures.watch] Fixtures.basePlanner)
      (Expr_ConstExpr 1 Constant_NullValue) newState
    = (Fail (Error (DecoratorFailure "refused")), st') /\ next st' = 2.
Proof.
  destruct (decorate_stops_at_first_failure
              (withDecorators [Fixtures.watch; refuse; Fixtures.watch] Fixtures.basePlanner)
              (planConst (Expr_ConstExpr 1 Constant_NullValue)) newState) as [_ H].
  eexists. split.
  - exact (H [Fixtures.watch] refuse [Fixtures.watch] _ _ _ _ _ _
             eq_refl eq_refl eq_refl eq_refl).
  - reflexivity.
Defined.


(** ** Generic dispatch *)

(** X3. Generic dispatch with an entry that has the form of the arity, for
    a call that is not one of the operators and whose arguments are
    planned: the node built carries that form as its implementation, and,
    but for the zero-arity node, the function name, the overload id and the
    operand trait of the entry. *)
Theorem generic_dispatch_binds_found_form p Plan id target fnName callArgs st args st1 o :
  ~ isOperator fnName ->
  planCallArgs Plan target callArgs st = (Ok args, st1) ->
  findImpl p fnName (overloadName p id) = Some o ->
  let oName := overloadName p id in
  let trait := functions.OperandTrait o in
  let call := planCall p Plan (Expr_CallExpr id target fnName callArgs) st in
  (forall fn, args = [] -> functions.Function o = Some fn ->
     call = (Ok (evalZeroArity (next st1) id fn), bump st1)) /\
  (forall fn x, args = [x] -> functions.Unary o = Some fn ->
     call = (Ok (evalUnary (next st1) id fnName oName x trait (Some fn)), bump st1)) /\
  (forall fn x y, args = [x; y] -> functions.Binary o = Some fn ->
     call = (Ok (evalBinary (next st1) id fnName oName x y trait (Some fn)), bump st1)) /\
  (forall fn, 3 <= length args -> functions.Function o = Some fn ->
     call = (Ok (evalVarArgs (next st1) id fnName oName args trait (Some fn)), bump st1)).
Proof.
  intros Hop Hargs Himpl oName trait call. subst call.
  rewrite (planCall_generic _ _ _ _ _ _ _ _ _ Hop Hargs). cbv zeta.
  rewrite Himpl. refine (conj _ (conj _ (conj _ _))).
  - intros fn -> Hfn. simpl. by rewrite Hfn.
  - intros fn x -> Hfn. simpl. by rewrite Hfn.
  - intros fn x y -> Hfn. simpl. by rewrite Hfn.
  - intros fn Hlen Hfn. destruct args as [|x [|y [|z rest]]]; simpl in Hlen; try lia.
    simpl. by rewrite Hfn.
Qed.

Lemma generic_dispatch_binds_found_form_witness :
  ~ isOperator "size" /\
  exists arg st',
    planCall (withDispatcher Fixtures.greedyDispatcher Fixtures.basePlanner)
      (Plan (withDispatcher Fixtures.greedyDispatcher Fixtures.basePlanner))
      (Expr_CallExpr 5 Expr_nil "size"
         [Expr_IdentExpr 1 "a"; Expr_IdentExpr 2 "b"; Expr_IdentExpr 3 "c"]) newState
    = (Ok (evalVarArgs 3 5 "size" "" arg 0 (functions.Function Fixtures.variadicOnly)), st')
    /\ length arg = 3.
Proof.
  assert (~ isOperator "size") as Hop.
  { rewrite isOperator_cases. intros [H|[H|[H|[H|H]]]]; discriminate H. }
  split; [exact Hop|].
  destruct (planCallArgs (Plan (withDispatcher Fixtures.greedyDispatcher Fixtures.basePlanner))
              Expr_nil [Expr_IdentExpr 1 "a"; Expr_IdentExpr 2 "b"; Expr_IdentExpr 3 "c"]
              newState) as [r st1] eqn:E.
  assert (exists args, r = Ok args /\ length args = 3 /\ next st1 = 3) as (args & -> & Hlen & Hn).
  { vm_compute in E. injection E as <- <-. eexists; repeat split. }
  destruct (generic_dispatch_binds_found_form
              (withDispatcher Fixtures.greedyDispatcher Fixtures.basePlanner)
              (Plan (withDispatcher Fixtures.greedyDispatcher Fixtures.basePlanner))
              5 Expr_nil "size"
              [Expr_IdentExpr 1 "a"; Expr_IdentExpr 2 "b"; Expr_IdentExpr 3 "c"]
              newState args st1 Fixtures.variadicOnly Hop E eq_refl) as (_ & _ & _ & Hvar).
  exists args, (bump st1). split; [|exact Hlen].
  rewrite <- Hn. apply Hvar; [rewrite Hlen; lia | reflexivity].
Defined.

(** X4. The entry of generic dispatch. A reference that lists exactly one
    overload id, not empty and known to the dispatcher, binds the entry of
    that id, whatever is registered under the function name. Without a
    reference, with a reference that lists no overload id or several, with
    an empty overload id, or with an overload id the dispatcher does not
    know, the entry is the one registered under the function name. *)
Theorem overload_id_before_function_name p id fnName :
  (forall oRef o entry,
     refMap p !! id = Some oRef -> OverloadId oRef = [o] -> o <> "" ->
     FindOverload (disp p) o = Some entry ->
     findImpl p fnName (overloadName p id) = Some entry) /\
  (forall oRef o,
     refMap p !! id = Some oRef -> OverloadId oRef = [o] ->
     o = "" \/ FindOverload (disp p) o = None ->
     findImpl p fnName (overloadName p id) = FindOverload (disp p) fnName) /\
  (forall oRef,
     refMap p !! id = Some oRef -> length (OverloadId oRef) <> 1 ->
     findImpl p fnName (overloadName p id) = FindOverload (disp p) fnName) /\
  (refMap p !! id = None ->
     findImpl p fnName (overloadName p id) = FindOverload (disp p) fnName).
Proof.
  unfold findImpl, overloadName. refine (conj _ (conj _ (conj _ _))).
  - intros oRef o entry -> -> Ho Hfound.
    rewrite bool_decide_eq_true_2 by done. by rewrite Hfound.
  - intros oRef o -> -> [-> | Hnone]; [done|].
    case_bool_decide; [by rewrite Hnone | done].
  - intros oRef -> Hlen. by destruct (OverloadId oRef) as [|o [|o' rest]].
  - by intros ->.
Qed.

(** ** Namespaces *)

(** X5. The resolver attached to identifiers and selects walks the
    namespace candidates of the name in order. It gives nothing when
    neither the bindings nor the provider resolve any candidate. Otherwise,
    at the first candidate that is resolved at all, a binding of the
    activation wins over an identifier of the provider; and an identifier
    of the provider at that candidate wins over any binding of a later
    candidate. *)
Theorem idResolver_first_resolved_candidate p ident ctx :
  ((forall c, c ∈ packages.ResolveCandidateNames (pkg p) ident -> unresolved p ctx c) ->
   idResolver p ident ctx = None) /\
  (forall before c after,
     packages.ResolveCandidateNames (pkg p) ident = before ++ c :: after ->
     (forall b, b ∈ before -> unresolved p ctx b) ->
     (forall object, ResolveName ctx c = Some object ->
        idResolver p ident ctx = Some object) /\
     (forall typeIdent, ResolveName ctx c = None ->
        ref.FindIdent (provider p) c = Some typeIdent ->
        idResolver p ident ctx = Some typeIdent)).
Proof.
  split; [apply idResolver_none|].
  intros before c after Hcands Hun.
  rewrite (idResolver_skip _ _ _ _ _ Hcands Hun). split.
  - intros object Hctx. by rewrite Hctx.
  - intros typeIdent Hctx Hprov. by rewrite Hctx, Hprov.
Qed.

Lemma idResolver_first_resolved_candidate_witness :
  idResolver
    {| disp := Fixtures.noOverloads;
       provider := {| ref.FindType := fun _ => false;
                      ref.FindIdent := fun name =>
                        if bool_decide (name = "a.v") then Some (types.Int 1) else None |};
       adapter := Fixtures.plainAdapter; pkg := Fixtures.packageAB;
       refMap := ∅; decorators := [] |}
    "v"
    {| ResolveName := fun name =>
         if bool_decide (name = "v") then Some (types.String "bound") else None |}
  = Some (types.Int 1).
Proof.
  pose (p := {| disp := Fixtures.noOverloads;
       provider := {| ref.FindType := fun _ => false;
                      ref.FindIdent := fun name =>
                        if bool_decide (name = "a.v") then Some (types.Int 1) else None |};
       adapter := Fixtures.plainAdapter; pkg := Fixtures.packageAB;
       refMap := ∅; decorators := [] |}).
  pose (ctx := {| ResolveName := fun name =>
         if bool_decide (name = "v") then Some (types.String "bound") else None |}).
  destruct (idResolver_first_resolved_candidate p "v" ctx) as [_ H].
  destruct (H ["a.b.v"] "a.v" ["v"] eq_refl) as [_ Hprov].
  - intros b Hb. apply list_elem_of_singleton in Hb as ->. by split.
  - exact (Hprov (types.Int 1) eq_refl eq_refl).
Defined.

(** X6. [getQualifiedID] on a chain of selects. Over an identifier the
    chain is a qualified name: the identifier, the fields of the chain and
    the selected field, joined by dots; node ids and test-only marks play
    no part. Over any other kind of expression (a call, a literal, a list,
    a struct, a comprehension, an unset node) it is no name. Over a nil
    operand the walk dereferences nil. The state is never touched. *)
Theorem qualified_id_of_select_chain root steps field st :
  (forall id name, root = Expr_IdentExpr id name ->
     getQualifiedID (selectChain root steps) field st
     = (Ok (String.concat "." (name :: ((fun step => step.1.2) <$> steps) ++ [field]), true),
        st)) /\
  (notAName root ->
     getQualifiedID (selectChain root steps) field st
     = (Ok (String.concat "." (((fun step => step.1.2) <$> steps) ++ [field]), false), st)) /\
  (root = Expr_nil ->
     getQualifiedID (selectChain root steps) field st = (Fail (Panic nil_dereference), st)).
Proof.
  rewrite getQualifiedID_chain. refine (conj _ (conj _ _)).
  - intros id name ->. cbn [getQualifiedID]. unfold ret. do 2 f_equal.
    destruct steps; [reflexivity|]. reflexivity.
  - intros Hroot. by destruct root.
  - by intros ->.
Qed.

Lemma qualified_id_of_select_chain_witness :
  getQualifiedID
    (Expr_SelectExpr 3 (Expr_SelectExpr 2 (Expr_IdentExpr 1 "a") "b" true) "c" false)
    "d" newState
  = (Ok ("a.b.c.d", true), newState).
Proof.
  destruct (qualified_id_of_select_chain (Expr_IdentExpr 1 "a")
              [(2%Z, "b", true); (3%Z, "c", false)] "d" newState) as [H _].
  exact (H 1%Z "a" eq_refl).
Defined.

(** X7. A structural field select: a select that is not test-only and has
    no reference plans its operand and builds the select node over it. The
    node carries the namespace resolver of the whole dotted path when the
    operand is a chain of selects over an identifier, and no resolver when
    the chain is over any other kind of expression. *)
Theorem structural_select_resolver p Plan' id root steps field st op st1 :
  refMap p !! id = None ->
  Plan' (selectChain root steps) st = (Ok op, st1) ->
  let sel := Expr_SelectExpr id (selectChain root steps) field false in
  (forall rid name, root = Expr_IdentExpr rid name ->
     planSelect p Plan' sel st
     = (Ok (evalSelect (next st1) id (types.String field) op
              (Some (idResolver p
                 (String.concat "." (name :: ((fun step => step.1.2) <$> steps) ++ [field]))))),
        bump st1)) /\
  (notAName root ->
     planSelect p Plan' sel st
     = (Ok (evalSelect (next st1) id (types.String field) op None), bump st1)).
Proof.
  intros Href Hop sel. subst sel. simpl. rewrite Href.
  rewrite (bind_Ok _ _ _ _ _ Hop).
  rewrite getQualifiedID_chain. split.
  - intros rid name ->. cbn [getQualifiedID]. unfold bind, ret. simpl.
    do 4 f_equal. by destruct steps.
  - intros Hroot. by destruct root.
Qed.

Lemma structural_select_resolver_witness :
  exists op st1,
    planSelect Fixtures.basePlanner (Plan Fixtures.basePlanner)
      (Expr_SelectExpr 3 (Expr_SelectExpr 2 (Expr_IdentExpr 1 "a") "b" false) "c" false)
      newState
    = (Ok (evalSelect 2 3 (types.String "c") op
             (Some (idResolver Fixtures.basePlanner "a.b.c"))), st1).
Proof.
  destruct (Plan Fixtures.basePlanner
              (selectChain (Expr_IdentExpr 1 "a") [(2%Z, "b", false)]) newState)
    as [r st1] eqn:E.
  assert (exists op, r = Ok op /\ next st1 = 2) as (op & -> & Hn).
  { vm_compute in E. injection E as <- <-. eexists; split; reflexivity. }
  destruct (structural_select_resolver Fixtures.basePlanner (Plan Fixtures.basePlanner)
              3 (Expr_IdentExpr 1 "a") [(2%Z, "b", false)] "c" newState op st1
              eq_refl E) as [H _].
  exists op, (bump st1). rewrite <- Hn. exact (H 1%Z "a" eq_refl).
Defined.

(** ** Calls and aggregates *)

(** X8. A call with a target is planned exactly as the same call without
    a target and with the target as its first argument: the receiver is
    planned first, it becomes argument 0 and counts for the arity. *)
Theorem receiver_is_first_argument p id target fnName callArgs st :
  target <> Expr_nil ->
  Plan p (Expr_CallExpr id target fnName callArgs) st
  = Plan p (Expr_CallExpr id Expr_nil fnName (target :: callArgs)) st.
Proof.
  intros Htarget. cbn [Plan]. unfold decorate, planCall.
  assert (planCallArgs (Plan p) target callArgs
          = planCallArgs (Plan p) Expr_nil (target :: callArgs)) as ->; [|reflexivity].
  by destruct target.
Qed.

Lemma receiver_is_first_argument_witness :
  Expr_IdentExpr 1 "s" <> Expr_nil /\
  Plan Fixtures.basePlanner
    (Expr_CallExpr 3 (Expr_IdentExpr 1 "s") "startsWith" [Expr_IdentExpr 2 "t"]) newState
  = Plan Fixtures.basePlanner
      (Expr_CallExpr 3 Expr_nil "startsWith" [Expr_IdentExpr 1 "s"; Expr_IdentExpr 2 "t"])
      newState.
Proof.
  assert (Expr_IdentExpr 1 "s" <> Expr_nil) as H by discriminate.
  split; [exact H|].
  exact (receiver_is_first_argument Fixtures.basePlanner 3 (Expr_IdentExpr 1 "s")
           "startsWith" [Expr_IdentExpr 2 "t"] newState H).
Defined.



(** X10. A literal of one of the seven kinds always plans to a constant
    node with the id of the expression, and the value the node holds reads
    back as that very literal, kind and payload; so two literals whose
    nodes hold the same value are the same literal. A constant whose kind
    is not set is an unknown-constant error, and nothing is allocated. *)
Theorem constants_plan_to_their_value id c st :
  (c = Constant_unset ->
   planConst (Expr_ConstExpr id c) st = (Fail (Error (UnknownConstantKind c)), st)) /\
  (c <> Constant_unset ->
   exists val,
     planConst (Expr_ConstExpr id c) st = (Ok (evalConst (next st) id val), bump st) /\
     literalOf val = Some c) /\
  (forall id' c' st' a a' val s s',
     planConst (Expr_ConstExpr id c) st = (Ok (evalConst a id val), s) ->
     planConst (Expr_ConstExpr id' c') st' = (Ok (evalConst a' id' val), s') ->
     c' = c).
Proof.
  assert (forall k (d : Constant) t b v u,
            planConst (Expr_ConstExpr k d) t = (Ok (evalConst b k v), u) ->
            literalOf v = Some d) as Hback.
  { intros k d t b v u. destruct d; simpl; unfold bind, throw, ret, alloc; simpl;
      intros [= ]; by subst. }
  split; [by intros ->|]. split.
  - intros Hset. destruct c; try done; eexists; (split; reflexivity).
  - intros id' c' st' a a' val s s' H1 H2.
    apply Hback in H1. apply Hback in H2. congruence.
Qed.

Lemma constants_plan_to_their_value_witness :
  Constant_Uint64Value 1 <> Constant_unset /\
  planConst (Expr_ConstExpr 5 (Constant_Uint64Value 1)) newState
  = (Ok (evalConst 0 5 (types.Uint 1)), bump newState).
Proof.
  assert (Constant_Uint64Value 1 <> Constant_unset) as H by discriminate.
  split; [exact H|].
  destruct (constants_plan_to_their_value 5 (Constant_Uint64Value 1) newState)
    as (_ & Hc & _).
  destruct (Hc H) as (val & Hplan & Hread).
  assert (val = types.Uint 1) as <-; [|exact Hplan].
  destruct val; simpl in Hread; congruence.
Defined.

(** X11. An object literal reads the field key and the value of each of
    its entries and nothing else: two structs with the same type name whose
    entries agree on field keys and values, in order, are planned alike,
    whatever the ids and map keys of the entries. *)
Theorem object_reads_field_keys_and_values p Plan id messageName entries entries' st :
  String.length messageName <> 0 ->
  GetFieldKey <$> entries = GetFieldKey <$> entries' ->
  GetValue <$> entries = GetValue <$> entries' ->
  planCreateStruct p Plan (Expr_StructExpr id messageName entries) st
  = planCreateStruct p Plan (Expr_StructExpr id messageName entries') st.
Proof.
  intros Hname Hkeys Hvals. unfold planCreateStruct.
  rewrite !bool_decide_eq_true_2 by done. unfold planCreateObj.
  destruct (resolveTypeName p _ messageName) as [typeName defined].
  destruct (negb defined); [reflexivity|].
  unfold bind. rewrite !planObjEntries_planEach, Hkeys, Hvals. reflexivity.
Qed.

Lemma object_reads_field_keys_and_values_witness :
  String.length "T" <> 0 /\
  planCreateStruct Fixtures.objectPlanner (Plan Fixtures.objectPlanner)
    (Expr_StructExpr 2 "T" [Entry_MapKey 3 Expr_nil (Expr_ConstExpr 1 Constant_NullValue)])
    newState
  = planCreateStruct Fixtures.objectPlanner (Plan Fixtures.objectPlanner)
      (Expr_StructExpr 2 "T" [Entry_FieldKey 9 "" (Expr_ConstExpr 1 Constant_NullValue)])
      newState.
Proof.
  assert (String.length "T" <> 0) as H by (simpl; lia).
  split; [exact H|].
  exact (object_reads_field_keys_and_values Fixtures.objectPlanner
           (Plan Fixtures.objectPlanner) 2 "T"
           [Entry_MapKey 3 Expr_nil (Expr_ConstExpr 1 Constant_NullValue)]
           [Entry_FieldKey 9 "" (Expr_ConstExpr 1 Constant_NullValue)]
           newState H eq_refl eq_refl).
Defined.

(** X12. A map literal, a struct without a type name whose entries all
    have a map key, plans the key of an entry and then its value, entry
    after entry, and builds the map node over the planned keys and the
    planned values, each in entry order. *)
Theorem map_plans_keys_then_values p Plan id entries st :
  forallb hasMapKey entries = true ->
  planCreateStruct p Plan (Expr_StructExpr id "" entries) st
  = (vs <~ planEach Plan (keysAndValues entries) ;;
     alloc (fun a => evalMap a id (unpair vs).1 (unpair vs).2 (adapter p))) st.
Proof.
  intros Hkeys. unfold planCreateStruct. simpl.
  unfold bind at 1. rewrite (planMapEntries_planEach _ _ _ Hkeys).
  unfold bind, ret. by destruct (planEach Plan (keysAndValues entries) st) as [[vs|f] st1].
Qed.

Lemma map_plans_keys_then_values_witness :
  forallb hasMapKey
    [Entry_MapKey 3 (Expr_ConstExpr 1 (Constant_StringValue "k")) (Expr_IdentExpr 2 "v")] = true /\
  (planCreateStruct Fixtures.basePlanner (Plan Fixtures.basePlanner)
     (Expr_StructExpr 4 ""
        [Entry_MapKey 3 (Expr_ConstExpr 1 (Constant_StringValue "k")) (Expr_IdentExpr 2 "v")])
     newState).1
  = Ok (evalMap 2 4 [evalConst 0 1 (types.String "k")]
          [evalIdent 1 2 "v" Fixtures.noTypes None] Fixtures.plainAdapter).
Proof.
  split; [reflexivity|].
  rewrite (map_plans_keys_then_values Fixtures.basePlanner (Plan Fixtures.basePlanner) 4
             [Entry_MapKey 3 (Expr_ConstExpr 1 (Constant_StringValue "k")) (Expr_IdentExpr 2 "v")]
             newState eq_refl).
  reflexivity.
Defined.

(** X13. A struct without a type name is planned as a map even when an
    entry has no map key: with the entries before it planned, the entry
    without a map key makes planning dereference nil, before its value
    or any later entry is planned. *)
Theorem map_entry_without_key_panics p Plan id before en after st vs st1 :
  forallb hasMapKey before = true ->
  hasMapKey en = false ->
  planEach Plan (keysAndValues before) st = (Ok vs, st1) ->
  planCreateStruct p Plan (Expr_StructExpr id "" (before ++ en :: after)) st
  = (Fail (Panic nil_dereference), st1).
Proof.
  intros Hkeys Hen Hbefore. unfold planCreateStruct. simpl.
  apply bind_Fail. by eapply planMapEntries_missing_key.
Qed.

Lemma map_entry_without_key_panics_witness :
  hasMapKey (Entry_FieldKey 2 "f" (Expr_ConstExpr 1 Constant_NullValue)) = false /\
  planCreateStruct Fixtures.basePlanner (Plan Fixtures.basePlanner)
    (Expr_StructExpr 3 "" [Entry_FieldKey 2 "f" (Expr_ConstExpr 1 Constant_NullValue)])
    newState
  = (Fail (Panic nil_dereference), newState).
Proof.
  split; [reflexivity|].
  exact (map_entry_without_key_panics Fixtures.basePlanner (Plan Fixtures.basePlanner) 3
           [] (Entry_FieldKey 2 "f" (Expr_ConstExpr 1 Constant_NullValue)) [] newState
           [] newState eq_refl eq_refl eq_refl).
Defined.

(** ** The identifier cache and panics across a whole plan *)

(** X14. Whatever the cache holds when planning starts is still there,
    bound to the same node, when planning ends, whatever the expression
    and whether planning returns a node, an error or panics: no step
    removes or replaces a cache entry. *)
Theorem cached_name_survives_planning p e st name i :
  identMap st !! name = Some i ->
  identMap (Plan p e st).2 !! name = Some i.
Proof.
  intros Hcached. destruct (Plan p e st) as [r st'] eqn:E. simpl.
  eapply lookup_weaken; [exact Hcached | exact (Plan_grows _ _ _ _ _ E)].
Qed.

Lemma cached_name_survives_planning_witness :
  identMap (Plan Fixtures.basePlanner (Expr_IdentExpr 1 "x") newState).2 !! "x"
    = Some (evalIdent 0 1 "x" Fixtures.noTypes None) /\
  identMap
    (Plan Fixtures.basePlanner
       (Expr_CallExpr 4 Expr_nil operators.LogicalAnd [Expr_IdentExpr 2 "x"; Expr_nil])
       (Plan Fixtures.basePlanner (Expr_IdentExpr 1 "x") newState).2).2 !! "x"
    = Some (evalIdent 0 1 "x" Fixtures.noTypes None).
Proof.
  assert (identMap (Plan Fixtures.basePlanner (Expr_IdentExpr 1 "x") newState).2 !! "x"
          = Some (evalIdent 0 1 "x" Fixtures.noTypes None)) as H by (vm_compute; reflexivity).
  split; [exact H|].
  exact (cached_name_survives_planning Fixtures.basePlanner _ _ "x" _ H).
Defined.

(** X15. Every node in the cache is an identifier node for the very name
    it is cached under, with the provider of the planner: a cache of
    which this holds, the empty cache of a new planner for one, is still
    such a cache after planning any expression, whatever the outcome. *)
Theorem cache_holds_identifier_nodes p e st :
  cachedIdents p (identMap st) ->
  cachedIdents p (identMap (Plan p e st).2).
Proof.
  destruct (Plan p e st) as [r st'] eqn:E. simpl.
  refine (Plan_keeps p (fun m m' => cachedIdents p m -> cachedIdents p m') _ _ _ e _ _ _ E).
  - auto.
  - auto.
  - intros m a id name resolver Hnone Hm name' i.
    rewrite lookup_insert. case_decide as Hname.
    + intros [= <-]. subst name'. eauto.
    + apply Hm.
Qed.

Lemma cache_holds_identifier_nodes_witness :
  cachedIdents Fixtures.namespacePlanner (identMap newState) /\
  cachedIdents Fixtures.namespacePlanner
    (identMap
       (Plan Fixtures.namespacePlanner
          (Expr_ListExpr 5
             [Expr_IdentExpr 1 "w";
              Expr_SelectExpr 2 (Expr_IdentExpr 3 "v") "v" false]) newState).2).
Proof.
  assert (cachedIdents Fixtures.namespacePlanner (identMap newState)) as H.
  { intros name i Hi. simpl in Hi. by rewrite lookup_empty in Hi. }
  split; [exact H|].
  exact (cache_holds_identifier_nodes Fixtures.namespacePlanner _ newState H).
Defined.

(** X16. Planning a well-formed tree never panics, as long as no
    decorator does: it returns a node or an error. A tree is well formed
    when it has no nil sub-expression, the target of a call apart, every
    call named after an operator has the arguments the operator reads, and
    every entry of a struct without a type name has a map key. *)
Theorem wellformed_trees_never_panic p e st why :
  wellFormed e = true ->
  Forall calmDecorator (decorators p) ->
  (Plan p e st).1 <> Fail (Panic why).
Proof. intros Hwf Hdecs. by apply Plan_calm. Qed.

Lemma wellformed_trees_never_panic_witness :
  wellFormed
    (Expr_CallExpr 6 Expr_nil operators.LogicalAnd
       [Expr_CallExpr 3 Expr_nil operators.Equals
          [Expr_SelectExpr 2 (Expr_IdentExpr 1 "x") "y" false;
           Expr_ConstExpr 4 (Constant_Int64Value 1)];
        Expr_SelectExpr 5 (Expr_IdentExpr 1 "x") "z" true]) = true /\
  Forall calmDecorator [Fixtures.watch; refuse] /\
  (Plan (withDecorators [Fixtures.watch; refuse] Fixtures.basePlanner)
     (Expr_CallExpr 6 Expr_nil operators.LogicalAnd
        [Expr_CallExpr 3 Expr_nil operators.Equals
           [Expr_SelectExpr 2 (Expr_IdentExpr 1 "x") "y" false;
            Expr_ConstExpr 4 (Constant_Int64Value 1)];
         Expr_SelectExpr 5 (Expr_IdentExpr 1 "x") "z" true]) newState).1
  <> Fail (Panic index_out_of_range).
Proof.
  assert (Forall calmDecorator [Fixtures.watch; refuse]) as Hd.
  { repeat constructor; intros i a why; discriminate. }
  split; [reflexivity|]. split; [exact Hd|].
  exact (wellformed_trees_never_panic
           (withDecorators [Fixtures.watch; refuse] Fixtures.basePlanner)
           (Expr_CallExpr 6 Expr_nil operators.LogicalAnd
              [Expr_CallExpr 3 Expr_nil operators.Equals
                 [Expr_SelectExpr 2 (Expr_IdentExpr 1 "x") "y" false;
                  Expr_ConstExpr 4 (Constant_Int64Value 1)];
               Expr_SelectExpr 5 (Expr_IdentExpr 1 "x") "z" true])
           newState index_out_of_range eq_refl Hd).
Defined.

(** ** What a plan depends on *)

(** X17. Planning a tree reads the dispatcher only at the names generic
    dispatch looks up: the overload id, when the reference gives one, and
    the function name of each call that is not named after an operator.
    Two dispatchers that agree on these names give the same plan and the
    same state; a tree whose calls are all operators is planned alike under
    every dispatcher. *)
Theorem plan_reads_dispatcher_at_call_names p d d' e st :
  (forall n, n ∈ dispatchNames p e -> FindOverload d n = FindOverload d' n) ->
  Plan (withDispatcher d p) e st = Plan (withDispatcher d' p) e st.
Proof.
  intros Hagree.
  apply (Plan_alike (withDispatcher d p) (withDispatcher d' p)
           eq_refl eq_refl eq_refl eq_refl (fun _ _ => eq_refl) e).
  intros n Hn. apply Hagree.
  by rewrite (dispatchNames_refMap p (withDispatcher d p) eq_refl e).
Qed.

Lemma plan_reads_dispatcher_at_call_names_witness :
  Plan (withDispatcher Fixtures.greedyDispatcher Fixtures.basePlanner)
    (Expr_CallExpr 6 Expr_nil operators.LogicalAnd
       [Expr_CallExpr 3 Expr_nil operators.Equals
          [Expr_SelectExpr 2 (Expr_IdentExpr 1 "x") "y" false;
           Expr_ConstExpr 4 (Constant_Int64Value 1)];
        Expr_SelectExpr 5 (Expr_IdentExpr 1 "x") "z" true]) newState
  = Plan (withDispatcher Fixtures.noOverloads Fixtures.basePlanner)
      (Expr_CallExpr 6 Expr_nil operators.LogicalAnd
         [Expr_CallExpr 3 Expr_nil operators.Equals
            [Expr_SelectExpr 2 (Expr_IdentExpr 1 "x") "y" false;
             Expr_ConstExpr 4 (Constant_Int64Value 1)];
          Expr_SelectExpr 5 (Expr_IdentExpr 1 "x") "z" true]) newState.
Proof.
  apply (plan_reads_dispatcher_at_call_names Fixtures.basePlanner
           Fixtures.greedyDispatcher Fixtures.noOverloads).
  intros n Hn. vm_compute in Hn. by apply elem_of_nil in Hn.
Defined.

(** X18. Decorators that hand their argument back change nothing: under a
    chain of such decorators every tree is planned exactly as under no
    decorator at all, node and state. *)
Theorem pass_through_decorators_change_nothing p e st :
  Forall passThrough (decorators p) ->
  Plan p e st = Plan (withDecorators [] p) e st.
Proof.
  intros Hpass.
  refine (Plan_alike p (withDecorators [] p) eq_refl eq_refl eq_refl eq_refl _ e _ st).
  - intros i st'. by rewrite applyDecorators_passThrough.
  - reflexivity.
Qed.

Lemma pass_through_decorators_change_nothing_witness :
  Forall passThrough [fun i a => (Ok i, a)] /\
  Plan (withDecorators [fun i a => (Ok i, a)] Fixtures.basePlanner)
    (Expr_SelectExpr 2 (Expr_IdentExpr 1 "x") "y" false) newState
  = Plan (withDecorators [] Fixtures.basePlanner)
      (Expr_SelectExpr 2 (Expr_IdentExpr 1 "x") "y" false) newState.
Proof.
  assert (Forall passThrough [fun i a => (Ok i, a)]) as H by by repeat constructor.
  split; [exact H|].
  exact (pass_through_decorators_change_nothing
           (withDecorators [fun i a => (Ok i, a)] Fixtures.basePlanner)
           (Expr_SelectExpr 2 (Expr_IdentExpr 1 "x") "y" false) newState H).
Defined.
